(** * brizzo: the room walker of the show page

    A shallow embedding of the script that explores the maze served by the
    brizzo API: the room cache ([rooms], [cache], [remember]), the request
    pipeline ([init], [req], [begin], [move]), the painter ([paint]) and the
    exploration loop ([main]). *)

From Stdlib Require Import Ascii.
From stdpp Require Import gmap strings list fin_maps.

Open Scope Z_scope.

(** ** Data *)

(** A room as the API returns it: its identifier, the identifiers of the
    rooms that can be seen from it, and what the painter needs (the corner
    points of its polygon and its colour). *)
Record room := Room {
  xid : string;
  see : list string;
  pos : list (Z * Z);
  col : string
}.

Global Instance room_eq_dec : EqDecision room.
Proof. solve_decision. Defined.

(** What [rooms[xid]] holds when it is not [undefined]: the constant
    [UNKNOWN] (which is [true] in the script) or a room object. *)
Inductive entry :=
| UNKNOWN
| Fetched (r : room).

Global Instance entry_eq_dec : EqDecision entry.
Proof. solve_decision. Defined.

(** What the [trail] array holds: [cache] pushes [room.xid], [main] pushes
    [current]. *)
Inductive crumb :=
| CrumbId (x : string)
| CrumbRoom (r : room).

(** [back.xid]: a room object has the property, an identifier (a primitive
    value) has not, and the access yields [undefined]. *)
Definition crumb_xid (back : crumb) : option string :=
  match back with
  | CrumbRoom r => Some (xid r)
  | CrumbId _ => None
  end.

(** Values that the script throws or that reject a promise. [BadResponse]
    is the response object of [throw r]. *)
Inductive thrown :=
| TypeError
| SyntaxError
| BadResponse (status : Z).

(** [e.status] *)
Definition status_of (e : thrown) : option Z :=
  match e with
  | BadResponse s => Some s
  | _ => None
  end.

Inductive http_method := GET | PUT.

Inductive credentials := Omit | Include.

(** The fetch configuration built by [init]; [rq_body] is the [xid] of the
    JSON object [{xid: xid}], and [rq_json] says whether the content type
    header is set. *)
Record request := Request {
  rq_credentials : credentials;
  rq_method : http_method;
  rq_body : option string;
  rq_json : bool
}.

(** The text of a response, by what [JSON.parse] makes of it: a room, the
    value [null], or a [SyntaxError] for a text that is not JSON. These are
    the texts of the model; the texts of other JSON values (booleans,
    numbers, strings, arrays, objects that lack a field of a room) are not
    among them, and the statements about a response name the texts that
    they are made for. *)
Inductive payload :=
| JsonRoom (r : room)
| JsonNull
| JsonGarbage.

(** What the network gives for a request: a response with a status and a
    text, or no response at all ([fetch] rejects). *)
Inductive reply :=
| Response (status : Z) (text : payload)
| Unreachable.

(** [r.ok] *)
Definition ok (status : Z) : bool :=
  bool_decide (200 ≤ status ≤ 299).

(** The calls of [alert]. *)
Inductive notice :=
| NotFound
| Failed (method : http_method) (data : option string) (status : option Z).

Inductive outcome (A : Type) :=
| Resolved (a : A)
| Rejected (e : thrown).
Arguments Resolved {A} a.
Arguments Rejected {A} e.

(** [main] either leaves its loop or is still running when the fuel of the
    model is spent. *)
Inductive verdict := Done | Unfinished.

Inductive control :=
| Continue (current : option room)
| Break.

(** ** The script, over any remote service *)

(** The API behind [BASE_URL]: a state and what it answers to a request. *)
Class Remote (service : Type) :=
  serve : request → service → reply * service.

Section Walker.

Context {service : Type} {api : Remote service}.

(** The global state of the page: the two constants [rooms] and [trail] of
    the script, the alerts shown, the rooms painted on the canvas and the
    requests sent, with the state of the remote service. The map [rooms]
    holds the properties that the object [rooms] has of its own, and a
    missing key reads as [undefined]. This is what the script reads for
    every identifier but the property names that an object inherits, such
    as "constructor" (the list [inherited_names] below): the statements
    that depend on an identifier being read as [undefined] ask that it is
    [plain]. The [trail] list has the last element of the array first:
    [push] is a cons and [pop] takes the head. *)
Record world := World {
  rooms : gmap string entry;
  trail : list crumb;
  alerts : list notice;
  painted : list room;
  sent : list request;
  remote : service
}.

Definition with_rooms (m : gmap string entry) (w : world) : world :=
  World m (trail w) (alerts w) (painted w) (sent w) (remote w).

Definition with_trail (t : list crumb) (w : world) : world :=
  World (rooms w) t (alerts w) (painted w) (sent w) (remote w).

(** A computation of the script: it reads and writes the page and either
    yields a value or throws. *)
Definition M (A : Type) : Type := world → outcome A * world.

Definition ret {A} (a : A) : M A := λ w, (Resolved a, w).

Definition bind {A B} (f : A → M B) (m : M A) : M B :=
  λ w, match m w with
       | (Resolved a, w') => f a w'
       | (Rejected e, w') => (Rejected e, w')
       end.

Global Instance M_ret : MRet M := @ret.
Global Instance M_bind : MBind M := @bind.

Definition throw {A} (e : thrown) : M A := λ w, (Rejected e, w).

(** [.catch(h)] *)
Definition catch {A} (m : M A) (h : thrown → M A) : M A :=
  λ w, match m w with
       | (Rejected e, w') => h e w'
       | r => r
       end.

Definition rooms_get (x : string) : M (option entry) :=
  λ w, (Resolved (rooms w !! x), w).

Definition rooms_set (x : string) (e : entry) : M unit :=
  λ w, (Resolved tt, with_rooms (<[x := e]> (rooms w)) w).

Definition trail_set (t : list crumb) : M unit :=
  λ w, (Resolved tt, with_trail t w).

Definition trail_push (c : crumb) : M unit :=
  λ w, (Resolved tt, with_trail (c :: trail w) w).

Definition alert (n : notice) : M unit :=
  λ w, (Resolved tt,
        World (rooms w) (trail w) (alerts w ++ [n]) (painted w) (sent w)
              (remote w)).

Fixpoint forEach {A} (f : A → M unit) (l : list A) : M unit :=
  match l with
  | [] => ret tt
  | a :: l' => f a ;; forEach f l'
  end.

(** [room.xid] on a value that may be [undefined] or [null] ([None]). *)
Definition get_xid (rm : option room) : M string :=
  match rm with
  | Some r => ret (xid r)
  | None => throw TypeError
  end.

(** [room.see] *)
Definition get_see (rm : option room) : M (list string) :=
  match rm with
  | Some r => ret (see r)
  | None => throw TypeError
  end.

(** [rooms[room.xid] === undefined] *)
Definition is_undefined (rm : option room) : M bool :=
  x ← get_xid rm; e ← rooms_get x; ret (bool_decide (e = None)).

(** [rooms[room.xid] === UNKNOWN] *)
Definition is_UNKNOWN (rm : option room) : M bool :=
  x ← get_xid rm; e ← rooms_get x; ret (bool_decide (e = Some UNKNOWN)).

(** Marks a room as known of:
<<
    if (rooms[xid] === undefined) { rooms[xid] = UNKNOWN; }
>> *)
Definition remember (x : string) : M unit :=
  e ← rooms_get x;
  if bool_decide (e = None) then rooms_set x UNKNOWN else ret tt.

(** Adds a room to the cache. The condition is
    [room && rooms[room.xid] === undefined || rooms[room.xid] === UNKNOWN]:
    [&&] binds tighter than [||], so that the right operand of [||] is
    evaluated whenever the left one is falsy. *)
Definition cache (rm : option room) : M (option room) :=
  guard ← (if bool_decide (is_Some rm) then is_undefined rm
           else ret false);
  cond ← (if guard : bool then ret true else is_UNKNOWN rm);
  (if cond : bool then
     x ← get_xid rm;
     trail_push (CrumbId x) ;;
     x ← get_xid rm;
     match rm with
     | Some r => rooms_set x (Fetched r)
     | None => ret tt
     end ;;
     l ← get_see rm;
     forEach remember l
   else ret tt) ;;
  ret rm.

(** Generates a fetch configuration. *)
Definition init (method : http_method) (data : option string)
    (reset : bool) : request :=
  Request (if reset then Omit else Include) method data
          (bool_decide (is_Some data)).

(** [fetch(BASE_URL, rq)]: the request goes out, and the promise resolves
    with the response or rejects with a [TypeError] when there is none. *)
Definition fetch (rq : request) : M (Z * payload) :=
  λ w, let '(rep, s) := serve rq (remote w) in
       let w' := World (rooms w) (trail w) (alerts w) (painted w)
                       (sent w ++ [rq]) s in
       match rep with
       | Response status text => (Resolved (status, text), w')
       | Unreachable => (Rejected TypeError, w')
       end.

(** [JSON.parse], applied to the text of a response or to [undefined]
    ([None]), which it reads as the text "undefined". *)
Definition JSON_parse (text : option payload) : M (option room) :=
  match text with
  | Some (JsonRoom r) => ret (Some r)
  | Some JsonNull => ret None
  | Some JsonGarbage => throw SyntaxError
  | None => throw SyntaxError
  end.

(** Performs a request: the text of an [ok] response, an alert and
    [undefined] for anything else, and then [JSON.parse]. *)
Definition req (method : http_method) (data : option string)
    (reset : bool) : M (option room) :=
  text ← catch
    (r ← fetch (init method data reset);
     if ok r.1 then ret (Some r.2) else throw (BadResponse r.1))
    (λ e, (if bool_decide (status_of e = Some 404) then alert NotFound
           else alert (Failed method data (status_of e))) ;;
          ret None);
  JSON_parse text.

(** Paints a room: a polygon with the points and the colour of the room is
    appended to the canvas, and the room is handed on. The list [painted]
    keeps the rooms of these polygons, in the order of the calls. *)
Definition paint (rm : option room) : M (option room) :=
  match rm with
  | Some r =>
      λ w, (Resolved (Some r),
            World (rooms w) (trail w) (alerts w) (painted w ++ [r])
                  (sent w) (remote w))
  | None => throw TypeError
  end.

(** Starts over. *)
Definition begin : M (option room) :=
  rm ← req GET None true; cache rm.

(** Moves to a neighbouring room. *)
Definition move (x : string) : M (option room) :=
  rm ← req PUT (Some x) false; rm ← cache rm; paint rm.

(** [current.see.find(xid => rooms[xid] === UNKNOWN)] *)
Definition frontier (current : room) (m : gmap string entry)
    : option string :=
  find (λ x, bool_decide (m !! x = Some UNKNOWN)) (see current).

(** [see.indexOf(x)]: the first position of [x], or -1. *)
Fixpoint indexOf (l : list string) (x : string) : Z :=
  match l with
  | [] => -1
  | y :: l' =>
      if bool_decide (y = x) then 0
      else let i := indexOf l' x in if bool_decide (0 ≤ i) then i + 1 else -1
  end.

(** The inner loop of [main], on the trail [t] that it finds:
<<
    while (trail.length > 0) {
        const back = trail.pop();
        if (current.see.indexOf(back.xid) >= 0) {
            current = await move(back.xid);
            break;
        }
    }
>>
    [indexOf(undefined)] is -1, since [see] holds identifiers only. *)
Fixpoint unwind (current : room) (t : list crumb) : M (option room) :=
  match t with
  | [] => ret (Some current)
  | back :: t' =>
      trail_set t' ;;
      match crumb_xid back with
      | Some x =>
          if bool_decide (0 ≤ indexOf (see current) x) then move x
          else unwind current t'
      | None => unwind current t'
      end
  end.

(** One turn of the outer loop of [main], for a [current] that is a room. *)
Definition turn (current : room) : M control :=
  λ w, match frontier current (rooms w) with
       | Some x =>
           (trail_push (CrumbRoom current) ;;
            c ← move x; ret (Continue c)) w
       | None =>
           if bool_decide (0 < length (trail w))%nat then
             (c ← unwind current (trail w); ret (Continue c)) w
           else (Resolved Break, w)
       end.

(** [while (current) { ... }] *)
Fixpoint explore (fuel : nat) (current : option room) : M verdict :=
  match fuel with
  | O => ret Unfinished
  | S n =>
      match current with
      | None => ret Done
      | Some c =>
          k ← turn c;
          match k with
          | Continue c' => explore n c'
          | Break => ret Done
          end
      end
  end.

Definition main (fuel : nat) : M verdict :=
  current ← begin; explore fuel current.

(** The page as it is loaded. *)
Definition fresh (s : service) : world := World ∅ [] [] [] [] s.

End Walker.

Arguments world : clear implicits.
Arguments M : clear implicits.

(** ** A maze behind the API *)

(** Modelled from the spec: the remote room service, which is not part of
    the script. It holds the rooms of a maze and the room where the session
    stands; [GET] starts a session at the entrance and returns that room,
    [PUT] with an identifier moves to that room when it is a neighbour of
    the room where the session stands and returns it, and answers 404
    otherwise. *)
Record maze := Maze {
  plan : list room;
  entrance : string
}.

Definition room_of (g : list room) (x : string) : option room :=
  find (λ r, bool_decide (xid r = x)) g.

(** A session of the service: the maze served and the room where the
    walker stands, once the session has started. *)
Record session := Session {
  served : maze;
  standing : option string
}.

(** The answer to a request that cannot be served. *)
Definition not_found (ss : session) : reply * session :=
  (Response 404 JsonGarbage, ss).

(** Modelled from the spec: the two operations of the remote room service,
    [startSession] ([GET]) and [moveTo] ([PUT]), which the script calls and
    does not hold. *)
Definition maze_serve (rq : request) (ss : session) : reply * session :=
  let g := plan (served ss) in
  match rq_method rq with
  | GET =>
      match room_of g (entrance (served ss)) with
      | Some r =>
          (Response 200 (JsonRoom r),
           Session (served ss) (Some (entrance (served ss))))
      | None => not_found ss
      end
  | PUT =>
      match rq_body rq, standing ss ≫= room_of g with
      | Some x, Some here =>
          if bool_decide (x ∈ see here) then
            match room_of g x with
            | Some r => (Response 200 (JsonRoom r), Session (served ss) (Some x))
            | None => not_found ss
            end
          else not_found ss
      | _, _ => not_found ss
      end
  end.

Global Instance maze_remote : Remote session := maze_serve.

(** The graph A -> [B, C], B -> [A], C -> [A]. *)
Definition roomA : room := Room "A" ["B"; "C"] [(0, 0); (1, 0); (1, 1)] "red".
Definition roomB : room := Room "B" ["A"] [(1, 0); (2, 0); (2, 1)] "green".
Definition roomC : room := Room "C" ["A"] [(0, 1); (1, 1); (1, 2)] "blue".
Definition star : maze := Maze [roomA; roomB; roomC] "A".

Definition run_main (mz : maze) (fuel : nat) :=
  main fuel (fresh (Session mz None)).

(** ** Sample mazes *)

(** A room that sees itself. *)
Definition cell : room := Room "A" ["A"] [] "grey".

(** A service that is out of order. *)
Definition nowhere : maze := Maze [] "A".

(** A maze of one room with no room in sight. *)
Definition hermit : room := Room "A" [] [] "grey".
Definition lone : maze := Maze [hermit] "A".

(** ** The vocabulary of the statements *)

(** The property names that the object [rooms = {}] has before the script
    writes to it: those that it inherits from [Object.prototype], the last
    three of them in some browsers only. Read through [rooms[xid]], such a
    name yields the inherited value, which is neither [undefined] nor
    [UNKNOWN]; the map of the model reads it as [undefined] where it has no
    entry. The statements about identifiers that [cache] and [remember]
    find unseen are made for the other names. *)
Definition inherited_names : list string :=
  ["constructor"; "hasOwnProperty"; "isPrototypeOf"; "propertyIsEnumerable";
   "toLocaleString"; "toString"; "valueOf"; "__proto__";
   "__defineGetter__"; "__defineSetter__"; "__lookupGetter__";
   "__lookupSetter__"; "toSource"; "watch"; "unwatch"].

(** An identifier that is not such a name. *)
Definition plain (x : string) : Prop := x ∉ inherited_names.

Global Instance plain_dec x : Decision (plain x).
Proof. unfold plain. apply _. Defined.

(** What [remember] does to the map, and what [cache] does to it for a room
    that it stores. *)
Definition note (m : gmap string entry) (x : string) : gmap string entry :=
  match m !! x with
  | None => <[x := UNKNOWN]> m
  | Some _ => m
  end.

Definition stored (m : gmap string entry) (r : room) : gmap string entry :=
  foldl note (<[xid r := Fetched r]> m) (see r).

(** The position of an identifier in its life: never seen, seen from a
    room, fetched. *)
Definition rank (e : option entry) : nat :=
  match e with
  | None => 0
  | Some UNKNOWN => 1
  | Some (Fetched _) => 2
  end.

(** [m'] is [m] later in the session: no identifier has gone back, and a
    fetched room is still the one that was stored. *)
Definition grows (m m' : gmap string entry) : Prop :=
  ∀ x, (rank (m !! x) ≤ rank (m' !! x))%nat ∧
       ∀ r, m !! x = Some (Fetched r) → m' !! x = Some (Fetched r).

(** The sequences of calls of [cache] and [remember]. *)
Inductive cache_call :=
| CallCache (rm : option room)
| CallRemember (x : string).

Definition call {service} (k : cache_call) (w : world service)
    : world service :=
  match k with
  | CallCache rm => (cache rm w).2
  | CallRemember x => (remember x w).2
  end.

Definition calls {service} (ks : list cache_call) (w : world service)
    : world service :=
  foldl (λ w k, call k w) w ks.

(** A reply that [req] takes for a failure: a response that is not [ok], or
    none. *)
Definition failure (rep : reply) : Prop :=
  match rep with
  | Response status _ => ok status = false
  | Unreachable => True
  end.

(** The alert that a failure raises. *)
Definition complaint (method : http_method) (data : option string)
    (rep : reply) : notice :=
  match rep with
  | Response status _ =>
      if bool_decide (status = 404) then NotFound
      else Failed method data (Some status)
  | Unreachable => Failed method data None
  end.

(** A reply that brings no room: a failure, or an [ok] response with the
    text "null" or with a text that is not JSON. *)
Definition no_room (rep : reply) : Prop :=
  failure rep ∨
  ∃ status, ok status = true ∧
            (rep = Response status JsonNull ∨ rep = Response status JsonGarbage).

(** The page once a request has gone out, and once an alert is shown. *)
Definition posted {service} (rq : request) (s : service)
    (w : world service) : world service :=
  World (rooms w) (trail w) (alerts w) (painted w) (sent w ++ [rq]) s.

Definition alerted {service} (n : notice) (w : world service)
    : world service :=
  World (rooms w) (trail w) (alerts w ++ [n]) (painted w) (sent w) (remote w).

Definition drawn {service} (r : room) (w : world service)
    : world service :=
  World (rooms w) (trail w) (alerts w) (painted w ++ [r]) (sent w) (remote w).

(** A crumb that the inner loop of [main] pops and drops when it stands in
    [c]: an identifier pushed by [cache] (it has no [xid]), or a room that
    is not seen from [c]. *)
Definition inert (c : room) (k : crumb) : Prop :=
  ∀ y, crumb_xid k = Some y → y ∉ see c.

(** Where the inner loop moves to, with the trail that it leaves. *)
Fixpoint way_back (c : room) (t : list crumb)
    : option (string * list crumb) :=
  match t with
  | [] => None
  | back :: t' =>
      match crumb_xid back with
      | Some x =>
          if bool_decide (0 ≤ indexOf (see c) x) then Some (x, t')
          else way_back c t'
      | None => way_back c t'
      end
  end.

(** The turns that follow one another in a run of the loop. *)
Inductive later {service} {api : Remote service}
    : room * world service → room * world service → Prop :=
| later_now p : later p p
| later_turn c w c' w' p :
    turn c w = (Resolved (Continue (Some c')), w') →
    later (c', w') p → later (c, w) p.

(** The crumb that [cache] leaves for a room that it stores. *)
Definition arrival (m : gmap string entry) (r : room) : list crumb :=
  if bool_decide (m !! xid r = None ∨ m !! xid r = Some UNKNOWN)
  then [CrumbId (xid r)] else [].

(** The pairs of a room and a room seen from it. *)
Definition arcs (g : list room) : list (string * string) :=
  r ← g; y ← see r; [(xid r, y)].

(** Two pairs that are the same edge, in either direction. *)
Definition same_link (e f : string * string) : Prop :=
  e = f ∨ e = (f.2, f.1).

Global Instance same_link_dec e f : Decision (same_link e f).
Proof. unfold same_link. apply _. Defined.

(** The edges among the pairs: one pair is kept for each. *)
Fixpoint links (l : list (string * string)) : list (string * string) :=
  match l with
  | [] => []
  | e :: l' =>
      if bool_decide (Exists (same_link e) (links l')) then links l'
      else e :: links l'
  end.

(** E, the number of edges of a maze. *)
Definition edges (mz : maze) : nat := length (links (arcs (plan mz))).

(** An edge with an end that is not fetched yet. *)
Definition unexplored (m : gmap string entry) (e : string * string) : Prop :=
  (rank (m !! e.1) < 2)%nat ∨ (rank (m !! e.2) < 2)%nat.

Global Instance unexplored_dec m e : Decision (unexplored m e).
Proof. unfold unexplored. apply _. Defined.

(** The rooms on the trail. *)
Fixpoint rooms_on (t : list crumb) : nat :=
  match t with
  | [] => 0
  | CrumbRoom _ :: t' => S (rooms_on t')
  | CrumbId _ :: t' => rooms_on t'
  end.

(** Every room that is seen from a room of the maze is a room of the
    maze. *)
Definition closed (mz : maze) : Prop :=
  Forall (λ r, Forall (λ y, is_Some (room_of (plan mz) y)) (see r)) (plan mz).

(** The edges that still have an end to fetch, and with them what a walk
    may still send and how long it may still last. *)
Definition left_over (mz : maze) (m : gmap string entry) : nat :=
  length (filter (unexplored m) (links (arcs (plan mz)))).

Definition budget (mz : maze) (w : world session) : nat :=
  (length (sent w) + 2 * left_over mz (rooms w) + rooms_on (trail w))%nat.

Definition distance (mz : maze) (w : world session) : nat :=
  (3 * left_over mz (rooms w) + length (trail w))%nat.

(** The walker stands in [c], where the service has it, and the rooms of
    the cache are rooms of the maze. *)
Definition at_home (mz : maze) (c : room) (w : world session) : Prop :=
  remote w = Session mz (Some (xid c)) ∧
  rooms w !! xid c = Some (Fetched c) ∧
  ∀ x r, rooms w !! x = Some (Fetched r) → room_of (plan mz) x = Some r.

(** ** More vocabulary: what a run keeps *)

(** An identifier under which the cache holds a room. *)
Definition known (m : gmap string entry) (x : string) : Prop :=
  ∃ r, m !! x = Some (Fetched r).


(** A cache in order: a room is stored under its own identifier, and the
    rooms in its sight have entries, where their identifiers are plain. *)
Definition tidy (m : gmap string entry) : Prop :=
  ∀ x r, m !! x = Some (Fetched r) →
         xid r = x ∧ ∀ y, y ∈ see r → plain y → is_Some (m !! y).

(** The page when the request [rq] of a move has come back with the room
    [r]: [cache] and [paint] have run. *)
Definition arrived {service} (r : room) (rq : request) (s : service)
    (w : world service) : world service :=
  drawn r (cache (Some r) (posted rq s w)).2.

(** Where a turn that moves to [x] takes the trail [t] from: forward to an
    [UNKNOWN] room, over the room that it leaves, or back to a room of the
    trail, under the crumbs that it pops. *)
Definition heads {service} (c : room) (w : world service) (x : string)
    (t : list crumb) : Prop :=
  rooms w !! x = Some UNKNOWN ∧ t = CrumbRoom c :: trail w ∨
  ∃ skipped b, trail w = skipped ++ CrumbRoom b :: t ∧ xid b = x.




(** ** More vocabulary: the walk of a maze *)

(** The rooms that can be reached from the entrance. *)
Inductive reach (mz : maze) : string → Prop :=
| reach_entrance : reach mz (entrance mz)
| reach_step x r y :
    reach mz x → room_of (plan mz) x = Some r → y ∈ see r → reach mz y.

(** The identifiers of the maze are plain: the entrance, and the rooms
    seen from its rooms. *)
Definition ordinary (mz : maze) : Prop :=
  plain (entrance mz) ∧ Forall (λ r, Forall plain (see r)) (plan mz).

Global Instance ordinary_dec mz : Decision (ordinary mz).
Proof. unfold ordinary. apply _. Defined.

(** Every room of the maze is seen from the rooms that it sees. *)
Definition mutual (mz : maze) : Prop :=
  Forall (λ r, Forall (λ y, match room_of (plan mz) y with
                            | Some r' => xid r ∈ see r'
                            | None => True
                            end) (see r)) (plan mz).

Global Instance mutual_dec mz : Decision (mutual mz).
Proof.
  unfold mutual. apply Forall_dec. intros r. apply Forall_dec. intros y.
  destruct (room_of (plan mz) y); apply _.
Defined.

(** A trail that leads back from [c]: every room on it is a room of the
    maze and is seen from the room above it, or from [c] at the top. *)
Inductive leads_back (mz : maze) : room → list crumb → Prop :=
| leads_nil c : leads_back mz c []
| leads_id c i t : leads_back mz c t → leads_back mz c (CrumbId i :: t)
| leads_room c p t :
    xid p ∈ see c → room_of (plan mz) (xid p) = Some p →
    leads_back mz p t → leads_back mz c (CrumbRoom p :: t).

(** What the walk of a maze keeps, besides [at_home]: the trail leads
    back over rooms of the cache; a room of the cache is the current one,
    or on the trail, or has all the rooms in its sight fetched; the cache
    is in order and holds rooms that can be reached only, the entrance
    among them. *)
Definition tour (mz : maze) (c : room) (w : world session) : Prop :=
  leads_back mz c (trail w) ∧
  (∀ p, CrumbRoom p ∈ trail w → rooms w !! xid p = Some (Fetched p)) ∧
  (∀ x r, rooms w !! x = Some (Fetched r) →
          x = xid c ∨ (∃ p, CrumbRoom p ∈ trail w ∧ xid p = x) ∨
          ∀ y, y ∈ see r → known (rooms w) y) ∧
  tidy (rooms w) ∧
  (∀ x, is_Some (rooms w !! x) → reach mz x) ∧
  known (rooms w) (entrance mz).

(** What the walk keeps of the canvas: every room of the cache but the
    entrance is painted; and the walk has not moved yet and has painted
    nothing, or the entrance sees another room and is painted or on the
    trail. *)
Definition gallery (mz : maze) (r0 c : room) (w : world session) : Prop :=
  (∀ x r, rooms w !! x = Some (Fetched r) →
          x = entrance mz ∨ r ∈ painted w) ∧
  (c = r0 ∧ painted w = [] ∧ (∀ p, CrumbRoom p ∉ trail w) ∧
   (∀ y, y ∈ see r0 → y ≠ xid r0 → rooms w !! y = Some UNKNOWN) ∨
   (∃ y, y ∈ see r0 ∧ y ≠ xid r0) ∧
   (r0 ∈ painted w ∨ CrumbRoom r0 ∈ trail w)).

(** ** The view box of the canvas *)

(** The numbers of the script with the operations that [paint] uses on
    them: [<=], [Math.min], [Math.max], [-], [+] and the constant
    [MARGIN]. *)
Record arith := Arith {
  num : Type;
  nle : num → num → Prop;
  nmin : num → num → num;
  nmax : num → num → num;
  nsub : num → num → num;
  nadd : num → num → num;
  MARGIN : num
}.

(** What [paint] relies on: [<=] is an order, [Math.min] is below its
    arguments and [Math.max] above them, as it is for numbers other than
    [NaN]. Nothing is asked of [-] and [+], which round. *)
Record orderly (A : arith) : Prop := Orderly {
  nle_refl : ∀ a, nle A a a;
  nle_trans : ∀ a b c, nle A a b → nle A b c → nle A a c;
  nmin_l : ∀ a b, nle A (nmin A a b) a;
  nmin_r : ∀ a b, nle A (nmin A a b) b;
  nmax_l : ∀ a b, nle A a (nmax A a b);
  nmax_r : ∀ a b, nle A b (nmax A a b)
}.

(** The integers, with [MARGIN = 1.0]: the arithmetic of the script on
    coordinates that are whole numbers, as long as the numbers stay below
    2^53 in size (see [safe] below); beyond that the script rounds. *)
Definition whole : arith := Arith Z Z.le Z.min Z.max Z.sub Z.add 1.

(** [canvas.viewBox.baseVal] *)
Record viewBox (A : arith) := ViewBox {
  vb_x : num A;
  vb_y : num A;
  vb_width : num A;
  vb_height : num A
}.
Arguments ViewBox {A}.
Arguments vb_x {A}.
Arguments vb_y {A}.
Arguments vb_width {A}.
Arguments vb_height {A}.

(** The body of [room.pos.forEach] in [paint]:
<<
    x = Math.min(x, pos.x - MARGIN);
    y = Math.min(y, pos.y - MARGIN);
    width = Math.max(width, pos.x - x + MARGIN);
    height = Math.max(height, pos.y - y + MARGIN);
>> *)
Definition widen {A : arith} (v : viewBox A) (pos : num A * num A)
    : viewBox A :=
  let x := nmin A (vb_x v) (nsub A pos.1 (MARGIN A)) in
  let y := nmin A (vb_y v) (nsub A pos.2 (MARGIN A)) in
  let width := nmax A (vb_width v) (nadd A (nsub A pos.1 x) (MARGIN A)) in
  let height := nmax A (vb_height v) (nadd A (nsub A pos.2 y) (MARGIN A)) in
  ViewBox x y width height.

(** The view box that [paint] sets, from the one that it finds and the
    corners of the room. *)
Definition frame {A : arith} (v : viewBox A) (corners : list (num A * num A))
    : viewBox A :=
  foldl widen v corners.

(** A canvas with an empty view box at the origin. *)
Definition blank : viewBox whole := @ViewBox whole 0 0 0 0.

(** The whole numbers up to 2^51 in size. The numbers of the script are
    doubles, which hold every whole number up to 2^53 in size, and add and
    subtract such numbers without rounding as long as the result is one of
    them. From a view box and corners of this kind [paint] computes numbers
    below 2^53 in size only, and there [whole] computes what the script
    does. *)
Definition safe (z : Z) : Prop := - 2 ^ 51 ≤ z ≤ 2 ^ 51.

Definition safe_corner (p : Z * Z) : Prop := safe p.1 ∧ safe p.2.

Definition safe_box (v : viewBox whole) : Prop :=
  safe (vb_x v) ∧ safe (vb_y v) ∧ safe (vb_width v) ∧ safe (vb_height v).

(** The bounds that the view box keeps, from a safe one and over safe
    corners: with them, every difference and sum in [widen] is below 2^53
    in size. *)
Definition exact_box (v : viewBox whole) : Prop :=
  (- 2 ^ 51 - 1 ≤ vb_x v ≤ 2 ^ 51) ∧ (- 2 ^ 51 - 1 ≤ vb_y v ≤ 2 ^ 51) ∧
  (- 2 ^ 51 ≤ vb_width v ≤ 2 ^ 52 + 2) ∧
  (- 2 ^ 51 ≤ vb_height v ≤ 2 ^ 52 + 2).

(** ** The address of the API *)

(** Whether "/" occurs in a string. *)
Fixpoint has_slash (s : string) : bool :=
  match s with
  | EmptyString => false
  | String a t => bool_decide (a = "/"%char) || has_slash t
  end.

(** [s.replace(/[^/]*$/, "")]: the expression matches the longest end of
    [s] without "/", and that end is cut off. *)
Fixpoint strip_page (s : string) : string :=
  match s with
  | EmptyString => EmptyString
  | String a t => if has_slash s then String a (strip_page t) else EmptyString
  end.

(** [s.substring(1)] *)
Definition substring1 (s : string) : string :=
  match s with
  | EmptyString => EmptyString
  | String _ t => t
  end.

(** [BASE_URL] of the show page, from [window.location + ""] and
    [window.location.hash]. *)
Definition BASE_URL (location hash : string) : string :=
  strip_page location +:+ "../api/" +:+ substring1 hash.

(** [BASE_URL] of the create page. *)
Definition BASE_URL_create (location : string) : string :=
  strip_page location +:+ "../api/".

(** ** The create page *)

(** The object that [create] posts as JSON. *)
Record submission := Submission {
  sub_name : string;
  sub_text : string;
  sub_shape : string;
  sub_seed : Z
}.

(** What comes back for it: a response with its status and text, or
    nothing. *)
Inductive answer :=
| Answer (status : Z) (text : string)
| NoAnswer.

(** The API that takes the submissions. *)
Class Registry (service : Type) :=
  register : submission → service → answer * service.

(** The create page: the alerts shown, the address that
    [window.location.href] was set to, if it was, the submissions posted,
    and the state of the API. *)
Record form (service : Type) := Form {
  shown : list string;
  href : option string;
  submitted : list submission;
  registry : service
}.
Arguments Form {service}.
Arguments shown {service}.
Arguments href {service}.
Arguments submitted {service}.
Arguments registry {service}.

(** What the [catch] of [create] gets: the response that was thrown, or
    the error of a [fetch] that failed. *)
Inductive caught :=
| CaughtResponse (status : Z) (text : string)
| CaughtError.

Definition name_taken : string :=
  "A message with that name already exists. Please select a different name.".

(** [create(name, text, shape)]: the submission is posted; an [ok] response
    sends the page to the message; a response that is not [ok] is thrown
    and caught, and alerts, for the status 409 with [name_taken] and
    otherwise with the text of the response; an error that is caught has
    no [status] and no [text], and the call of [r.text()] throws. *)
Definition create {service} {api : Registry service}
    (name text shape : string) (p : form service)
    : outcome unit * form service :=
  let sub := Submission name text shape 12345 in
  let p1 := Form (shown p) (href p) (submitted p ++ [sub])
                 (register sub (registry p)).2 in
  let fetched :=
    match (register sub (registry p)).1 with
    | Answer status body =>
        if ok status then inr (status, body)
        else inl (CaughtResponse status body)
    | NoAnswer => inl CaughtError
    end in
  match fetched with
  | inr _ =>
      (Resolved (),
       Form (shown p1) (Some ("../show/#" +:+ name)) (submitted p1)
            (registry p1))
  | inl (CaughtResponse status body) =>
      if bool_decide (status = 409) then
        (Resolved (),
         Form (shown p1 ++ [name_taken]) (href p1) (submitted p1)
              (registry p1))
      else
        (Resolved (),
         Form (shown p1 ++ ["Failed to create message: " +:+ body])
              (href p1) (submitted p1) (registry p1))
  | inl CaughtError => (Rejected TypeError, p1)
  end.

(** An answer that is a response with an [ok] status. *)
Definition accepted (a : answer) : Prop :=
  match a with
  | Answer status _ => ok status = true
  | NoAnswer => False
  end.

(** Two sample registries: one that keeps the names it has taken, and
    turns a second message of a name down with the status 409 and a
    message with no text with the status 400; and one that cannot be
    reached. *)
Global Instance names_registry : Registry (list string) :=
  λ sub names,
    if bool_decide (sub_name sub ∈ names) then (Answer 409 "Conflict", names)
    else if bool_decide (sub_text sub = "") then (Answer 400 "No text", names)
    else (Answer 201 "", sub_name sub :: names).

Global Instance no_registry : Registry unit := λ _ s, (NoAnswer, s).

(** A sample service that answers every request with the text "null". *)
Global Instance null_remote : Remote unit := λ _ s, (Response 200 JsonNull, s).

(** ** The cache *)

Lemma note_lookup m x y :
  note m x !! y =
  match m !! y with
  | Some e => Some e
  | None => if bool_decide (y = x) then Some UNKNOWN else None
  end.
Proof.
  unfold note. destruct (m !! x) as [e|] eqn:Hx.
  - destruct (m !! y) eqn:Hy; [done|]. case_bool_decide; [congruence|done].
  - case_bool_decide as Hyx.
    + subst y. by rewrite Hx, lookup_insert_eq.
    + rewrite lookup_insert_ne by done. by destruct (m !! y).
Qed.

Lemma notes_lookup l m y :
  foldl note m l !! y =
  match m !! y with
  | Some e => Some e
  | None => if bool_decide (y ∈ l) then Some UNKNOWN else None
  end.
Proof.
  revert m. induction l as [|x l IH]; intros m; cbn [foldl].
  - destruct (m !! y); [done|].
    by rewrite bool_decide_eq_false_2 by apply not_elem_of_nil.
  - rewrite IH, note_lookup. destruct (m !! y) as [e|]; [done|].
    destruct (decide (y = x)) as [->|Hne].
    + rewrite !bool_decide_eq_true_2; [done|left|done].
    + rewrite (bool_decide_eq_false_2 (y = x)) by done.
      apply (f_equal (λ b : bool, if b then Some UNKNOWN else None)).
      apply bool_decide_ext. rewrite elem_of_cons. tauto.
Qed.

Lemma stored_lookup m r y :
  stored m r !! y =
  if bool_decide (y = xid r) then Some (Fetched r)
  else match m !! y with
       | Some e => Some e
       | None => if bool_decide (y ∈ see r) then Some UNKNOWN else None
       end.
Proof.
  unfold stored. rewrite notes_lookup.
  destruct (decide (y = xid r)) as [->|Hne].
  - by rewrite lookup_insert_eq, bool_decide_eq_true_2.
  - by rewrite lookup_insert_ne, (bool_decide_eq_false_2 (y = xid r)).
Qed.

Section Cache.

Context {service : Type}.
Implicit Types w : world service.

Lemma with_rooms_same w : with_rooms (rooms w) w = w.
Proof. by destruct w. Qed.

Lemma remember_run x w :
  remember x w = (Resolved tt, with_rooms (note (rooms w) x) w).
Proof.
  unfold remember, note, mbind, M_bind, bind, rooms_get, rooms_set, ret.
  destruct (rooms w !! x) eqn:H; simpl; [|done].
  by rewrite with_rooms_same.
Qed.

Lemma forEach_remember_run l w :
  forEach remember l w
  = (Resolved tt, with_rooms (foldl note (rooms w) l) w).
Proof.
  revert w. induction l as [|x l IH]; intros w; simpl.
  - unfold ret. by rewrite with_rooms_same.
  - unfold mbind, M_bind, bind. rewrite remember_run, IH. by destruct w.
Qed.

(** [cache] on a room: the room comes back, and the page changes only when
    the room was not in the cache as a room. *)
Lemma cache_room r w :
  cache (Some r) w =
  (Resolved (Some r),
   if bool_decide (rooms w !! xid r = None ∨ rooms w !! xid r = Some UNKNOWN)
   then World (stored (rooms w) r) (CrumbId (xid r) :: trail w)
              (alerts w) (painted w) (sent w) (remote w)
   else w).
Proof.
  unfold cache, is_undefined, is_UNKNOWN, get_xid, get_see, mbind, M_bind,
    bind, rooms_get, rooms_set, trail_push, ret; simpl.
  destruct (rooms w !! xid r) as [[|r']|] eqn:H; simpl;
    rewrite ?H; simpl; rewrite ?forEach_remember_run; simpl.
  all: by destruct w.
Qed.

End Cache.

(** ** The request pipeline *)

Section Pipeline.

Context {service : Type} {api : Remote service}.
Implicit Types w : world service.

Lemma req_run method data reset w :
  req method data reset w =
  let rq := init method data reset in
  let rep := (serve rq (remote w)).1 in
  let w' := posted rq (serve rq (remote w)).2 w in
  match rep with
  | Response status text =>
      if ok status then JSON_parse (Some text) w'
      else (Rejected SyntaxError, alerted (complaint method data rep) w')
  | Unreachable =>
      (Rejected SyntaxError, alerted (complaint method data rep) w')
  end.
Proof.
  unfold req, catch, fetch, mbind, M_bind, bind; simpl.
  destruct (serve (init method data reset) (remote w)) as [[st text|] s];
    simpl; [|done].
  destruct (ok st); simpl; [by destruct text|].
  unfold throw, alert, ret; simpl.
  destruct (decide (st = 404)) as [->|Hne]; [done|].
  rewrite !bool_decide_eq_false_2; [done|done|congruence].
Qed.

(** A failed request: one alert, and [JSON.parse] of [undefined] throws. *)
Lemma req_failure method data reset w :
  failure (serve (init method data reset) (remote w)).1 →
  req method data reset w =
  (Rejected SyntaxError,
   alerted (complaint method data (serve (init method data reset) (remote w)).1)
     (posted (init method data reset)
        (serve (init method data reset) (remote w)).2 w)).
Proof.
  intros Hf. rewrite req_run; simpl.
  destruct (serve (init method data reset) (remote w)).1 as [st text|];
    simpl in *; [|done].
  by rewrite Hf.
Qed.

Lemma begin_failure w :
  failure (serve (init GET None true) (remote w)).1 →
  begin w =
  (Rejected SyntaxError,
   alerted (complaint GET None (serve (init GET None true) (remote w)).1)
     (posted (init GET None true) (serve (init GET None true) (remote w)).2 w)).
Proof.
  intros Hf. unfold begin, mbind, M_bind, bind. by rewrite req_failure.
Qed.

Lemma move_failure x w :
  failure (serve (init PUT (Some x) false) (remote w)).1 →
  move x w =
  (Rejected SyntaxError,
   alerted (complaint PUT (Some x)
              (serve (init PUT (Some x) false) (remote w)).1)
     (posted (init PUT (Some x) false)
        (serve (init PUT (Some x) false) (remote w)).2 w)).
Proof.
  intros Hf. unfold move, mbind, M_bind, bind. by rewrite req_failure.
Qed.

(** A request answered with a room. *)
Lemma req_room method data reset w status r s :
  serve (init method data reset) (remote w) = (Response status (JsonRoom r), s) →
  ok status = true →
  req method data reset w =
  (Resolved (Some r), posted (init method data reset) s w).
Proof.
  intros Hs Hok. rewrite req_run. cbv zeta. rewrite Hs; simpl.
  by rewrite Hok.
Qed.

Lemma begin_room w status r s :
  serve (init GET None true) (remote w) = (Response status (JsonRoom r), s) →
  ok status = true →
  begin w = cache (Some r) (posted (init GET None true) s w).
Proof.
  intros Hs Hok. unfold begin, mbind, M_bind, bind.
  by rewrite (req_room _ _ _ _ _ _ _ Hs Hok).
Qed.

Lemma move_room x w status r s :
  serve (init PUT (Some x) false) (remote w)
  = (Response status (JsonRoom r), s) →
  ok status = true →
  move x w =
  (Resolved (Some r),
   drawn r (cache (Some r) (posted (init PUT (Some x) false) s w)).2).
Proof.
  intros Hs Hok. unfold move, mbind, M_bind, bind.
  rewrite (req_room _ _ _ _ _ _ _ Hs Hok), cache_room. done.
Qed.

End Pipeline.

(** ** The cache only grows *)

Lemma grows_refl m : grows m m.
Proof. by intros x. Qed.

Lemma grows_trans m1 m2 m3 : grows m1 m2 → grows m2 m3 → grows m1 m3.
Proof.
  intros H12 H23 x. destruct (H12 x) as [Ha Hb], (H23 x) as [Hc Hd].
  split; [lia|]. intros r Hr. eauto.
Qed.

Lemma grows_note m x : grows m (note m x).
Proof.
  intros y. rewrite note_lookup. destruct (m !! y) as [e|]; [done|].
  split; [simpl; case_bool_decide; simpl; lia|done].
Qed.

Lemma grows_stored m r :
  m !! xid r = None ∨ m !! xid r = Some UNKNOWN → grows m (stored m r).
Proof.
  intros Hr y. rewrite stored_lookup. case_bool_decide as Hy.
  - subst y. destruct Hr as [-> | ->]; simpl; split; (lia || done).
  - destruct (m !! y) as [e|]; [done|].
    split; [simpl; case_bool_decide; simpl; lia|done].
Qed.

Section Growth.

Context {service : Type} {api : Remote service}.
Implicit Types w : world service.

Lemma cache_grows rm w : grows (rooms w) (rooms (cache rm w).2).
Proof.
  destruct rm as [r|]; [|apply grows_refl].
  rewrite cache_room; simpl. case_bool_decide as H; [|apply grows_refl].
  by apply grows_stored.
Qed.

Lemma remember_grows x w : grows (rooms w) (rooms (remember x w).2).
Proof. rewrite remember_run; simpl. apply grows_note. Qed.

Lemma call_grows k w : grows (rooms w) (rooms (call k w)).
Proof. destruct k; [apply cache_grows|apply remember_grows]. Qed.

Lemma calls_grows ks w : grows (rooms w) (rooms (calls ks w)).
Proof.
  revert w. induction ks as [|k ks IH]; intros w; [apply grows_refl|].
  simpl. eapply grows_trans; [apply call_grows|apply IH].
Qed.

(** A request leaves the cache, the trail and the canvas alone, whatever
    comes of it. *)
Lemma req_keeps method data reset w :
  rooms (req method data reset w).2 = rooms w ∧
  trail (req method data reset w).2 = trail w ∧
  painted (req method data reset w).2 = painted w.
Proof.
  rewrite req_run; simpl.
  destruct (serve (init method data reset) (remote w)).1 as [st text|];
    [|done].
  destruct (ok st); [|done]. by destruct text.
Qed.

Lemma move_run x w :
  move x w =
  match req PUT (Some x) false w with
  | (Resolved (Some r), w1) =>
      (Resolved (Some r), drawn r (cache (Some r) w1).2)
  | (Resolved None, w1) => (Rejected TypeError, w1)
  | (Rejected e, w1) => (Rejected e, w1)
  end.
Proof.
  unfold move, mbind, M_bind, bind.
  destruct (req PUT (Some x) false w) as [[[r|]|e] w1];
    [|done..].
  by rewrite cache_room.
Qed.

Lemma begin_run w :
  begin w =
  match req GET None true w with
  | (Resolved rm, w1) => cache rm w1
  | (Rejected e, w1) => (Rejected e, w1)
  end.
Proof. done. Qed.

Lemma move_grows x w : grows (rooms w) (rooms (move x w).2).
Proof.
  rewrite move_run. pose proof (req_keeps PUT (Some x) false w) as (Hr & _).
  destruct (req PUT (Some x) false w) as [[[r|]|e] w1];
    simpl in *; rewrite <- Hr; [apply cache_grows|apply grows_refl..].
Qed.

Lemma begin_grows w : grows (rooms w) (rooms (begin w).2).
Proof.
  rewrite begin_run. pose proof (req_keeps GET None true w) as (Hr & _).
  destruct (req GET None true w) as [[rm|e] w1];
    simpl in *; rewrite <- Hr; [apply cache_grows|apply grows_refl].
Qed.

Lemma unwind_grows c t w :
  grows (rooms w) (rooms (unwind c t w).2).
Proof.
  revert w. induction t as [|back t IH]; intros w; [apply grows_refl|].
  cbn [unwind]. unfold mbind, M_bind, bind, trail_set; simpl.
  destruct (crumb_xid back) as [x|]; [|apply (IH (with_trail t w))].
  case_bool_decide; [apply (move_grows x (with_trail t w))|].
  apply (IH (with_trail t w)).
Qed.

Lemma turn_grows c w : grows (rooms w) (rooms (turn c w).2).
Proof.
  unfold turn. destruct (frontier c (rooms w)) as [x|].
  - unfold mbind, M_bind, bind, trail_push; simpl.
    pose proof (move_grows x (with_trail (CrumbRoom c :: trail w) w)) as H.
    by destruct (move x _) as [[?|?] ?].
  - case_bool_decide; [|apply grows_refl].
    unfold mbind, M_bind, bind.
    pose proof (unwind_grows c (trail w) w) as Hg.
    by destruct (unwind c _ w) as [[?|?] ?].
Qed.

Lemma explore_grows n c w :
  grows (rooms w) (rooms (explore n c w).2).
Proof.
  revert c w. induction n as [|n IH]; intros c w; [apply grows_refl|].
  cbn [explore]. destruct c as [c|]; [|apply grows_refl].
  unfold mbind, M_bind, bind. pose proof (turn_grows c w) as H.
  destruct (turn c w) as [[[c'|]|e] w1]; simpl in *; try done.
  eapply grows_trans; [done|apply IH].
Qed.

Lemma main_grows n w : grows (rooms w) (rooms (main n w).2).
Proof.
  unfold main, mbind, M_bind, bind. pose proof (begin_grows w) as H.
  destruct (begin w) as [[c|e] w1]; simpl in *; [|done].
  eapply grows_trans; [done|apply explore_grows].
Qed.

(** C5. Under every sequence of calls of [cache] and [remember], and in
    every run of [main], the entry of every identifier only moves forward
    through never seen, [UNKNOWN] and fetched, and an identifier that holds
    a fetched room holds that same room ever after. *)
Theorem cache_entries_only_move_forward :
  (∀ (ks : list cache_call) w, grows (rooms w) (rooms (calls ks w))) ∧
  (∀ (fuel : nat) w, grows (rooms w) (rooms (main fuel w).2)).
Proof. split; [apply calls_grows|apply main_grows]. Qed.

End Growth.

(** ** What [cache] does *)

Section CacheFacts.

Context {service : Type}.
Implicit Types w : world service.


(** C10. [cache] throws a [TypeError] when it is called without a room:
    the left operand of [||] is falsy without a look at [room.xid], and the
    right operand reads [room.xid]. *)
Theorem cache_without_room_throws w :
  (if bool_decide (is_Some (@None room)) then is_undefined None
   else ret false) w = (Resolved false, w) ∧
  is_UNKNOWN None w = (Rejected TypeError, w) ∧
  cache None w = (Rejected TypeError, w).
Proof. done. Qed.

End CacheFacts.


(** ** The turns of the loop *)

Lemma indexOf_found l x : 0 ≤ indexOf l x ↔ x ∈ l.
Proof.
  induction l as [|y l IH]; simpl.
  - split; [lia|]. by intros ?%elem_of_nil.
  - rewrite elem_of_cons. case_bool_decide as Hy.
    + split; [by left|lia].
    + case_bool_decide as Hi.
      * split; [intros _; right; by apply IH|lia].
      * split; [lia|]. intros [->|Hin]; [done|]. by apply IH in Hin.
Qed.

Lemma way_back_found c t x rest :
  way_back c t = Some (x, rest) ↔
  ∃ skipped b, t = skipped ++ CrumbRoom b :: rest ∧ xid b = x ∧
               x ∈ see c ∧ Forall (inert c) skipped.
Proof.
  induction t as [|k t IH]; simpl.
  - split; [done|]. intros (sk & b & Ht & _). by destruct sk.
  - assert (way_back c t = Some (x, rest) ↔
            ∃ skipped b, k :: t = (k :: skipped) ++ CrumbRoom b :: rest ∧
                         xid b = x ∧ x ∈ see c ∧ Forall (inert c) skipped)
      as Hskip.
    { rewrite IH. split; intros (sk & b & Ht & Hrest).
      - exists sk, b. by rewrite Ht.
      - exists sk, b. split; [by injection Ht|done]. }
    destruct k as [i|b0]; simpl.
    + rewrite Hskip. split.
      * intros (sk & b & Ht & Hb & Hin & Hsk). exists (CrumbId i :: sk), b.
        repeat split; try done. constructor; [by intros y|done].
      * intros (sk & b & Ht & Hb & Hin & Hsk).
        destruct sk as [|k sk]; [done|]. injection Ht as -> Ht.
        exists sk, b. rewrite Ht. by inversion Hsk.
    + case_bool_decide as Hi.
      * apply indexOf_found in Hi. split.
        -- intros [= <- <-]. by exists [], b0.
        -- intros (sk & b & Ht & Hb & Hin & Hsk).
           destruct sk as [|k sk].
           ++ simpl in Ht. injection Ht as -> ->. by rewrite Hb.
           ++ simplify_eq/=. inversion Hsk as [|? ? Hk _]; subst.
              by destruct (Hk (xid b0) eq_refl).
      * rewrite indexOf_found in Hi. rewrite Hskip. split.
        -- intros (sk & b & Ht & Hb & Hin & Hsk).
           exists (CrumbRoom b0 :: sk), b. repeat split; try done.
           constructor; [|done]. by intros y [= <-].
        -- intros (sk & b & Ht & Hb & Hin & Hsk).
           destruct sk as [|k sk].
           ++ by simplify_eq/=.
           ++ simplify_eq/=. exists sk, b. by inversion Hsk.
Qed.

Lemma way_back_lost c t : way_back c t = None ↔ Forall (inert c) t.
Proof.
  induction t as [|k t IH]; simpl; [by split|].
  destruct k as [i|b]; simpl.
  - rewrite IH. split; [intros Ht; constructor; [by intros y|done]|].
    by inversion 1.
  - case_bool_decide as Hi; rewrite indexOf_found in Hi.
    + split; [done|]. inversion 1 as [|? ? Hk _]; subst.
      by destruct (Hk (xid b) eq_refl).
    + rewrite IH. split; [|by inversion 1].
      intros Ht. constructor; [|done]. by intros y [= <-].
Qed.

Section Turns.

Context {service : Type} {api : Remote service}.
Implicit Types w : world service.

Lemma unwind_found c t w x rest :
  way_back c t = Some (x, rest) →
  unwind c t w = move x (with_trail rest w).
Proof.
  revert w. induction t as [|k t IH]; intros w; [done|].
  cbn [unwind way_back]. unfold mbind, M_bind, bind, trail_set.
  destruct (crumb_xid k) as [y|].
  - case_bool_decide.
    + by intros [= -> ->].
    + intros Ht. by rewrite (IH _ Ht).
  - intros Ht. by rewrite (IH _ Ht).
Qed.

Lemma unwind_lost c t w :
  way_back c t = None → t ≠ [] →
  unwind c t w = (Resolved (Some c), with_trail [] w).
Proof.
  revert w. induction t as [|k t IH]; intros w; [done|]. intros Ht _.
  cbn [unwind way_back] in *. unfold mbind, M_bind, bind, trail_set.
  assert (way_back c t = None →
          unwind c t (with_trail t w) = (Resolved (Some c), with_trail [] w))
    as Hrest.
  { intros Hn. destruct t as [|k' t']; [done|]. by rewrite IH. }
  destruct (crumb_xid k) as [y|]; [|by apply Hrest].
  case_bool_decide; [done|by apply Hrest].
Qed.

(** A turn, by where it moves to. *)
Lemma turn_forward c w x :
  frontier c (rooms w) = Some x →
  turn c w =
  (c' ← move x; ret (Continue c')) (with_trail (CrumbRoom c :: trail w) w).
Proof. intros Hf. unfold turn. by rewrite Hf. Qed.

Lemma turn_back c w x rest :
  frontier c (rooms w) = None →
  way_back c (trail w) = Some (x, rest) →
  turn c w = (c' ← move x; ret (Continue c')) (with_trail rest w).
Proof.
  intros Hf Hb. unfold turn. rewrite Hf.
  destruct (trail w) as [|k t] eqn:Ht; [done|].
  rewrite bool_decide_eq_true_2 by (simpl; lia).
  unfold mbind, M_bind, bind. by rewrite (unwind_found _ _ _ _ _ Hb).
Qed.

Lemma turn_lost c w :
  frontier c (rooms w) = None →
  way_back c (trail w) = None → trail w ≠ [] →
  turn c w = (Resolved (Continue (Some c)), with_trail [] w).
Proof.
  intros Hf Hb Ht. unfold turn. rewrite Hf.
  rewrite bool_decide_eq_true_2 by (destruct (trail w); simpl; [done|lia]).
  unfold mbind, M_bind, bind. by rewrite (unwind_lost _ _ _ Hb Ht).
Qed.

Lemma turn_break c w :
  frontier c (rooms w) = None → trail w = [] →
  turn c w = (Resolved Break, w).
Proof. intros Hf Ht. unfold turn. by rewrite Hf, Ht. Qed.

End Turns.

(** ** Requests that fail *)

Section Failures.

Context {service : Type} {api : Remote service}.
Implicit Types w : world service.

(** C3. When the request of [begin] or of [move] fails, the user gets one
    alert, and the cache and the trail are what they were when the request
    went out. *)
Theorem failed_request_changes_nothing w :
  (failure (serve (init GET None true) (remote w)).1 →
   (∃ e, (begin w).1 = Rejected e) ∧
   rooms (begin w).2 = rooms w ∧ trail (begin w).2 = trail w ∧
   ∃ n, alerts (begin w).2 = alerts w ++ [n]) ∧
  (∀ x, failure (serve (init PUT (Some x) false) (remote w)).1 →
   (∃ e, (move x w).1 = Rejected e) ∧
   rooms (move x w).2 = rooms w ∧ trail (move x w).2 = trail w ∧
   ∃ n, alerts (move x w).2 = alerts w ++ [n]).
Proof.
  split.
  - intros Hf. rewrite (begin_failure _ Hf); simpl. split_and!; eauto.
  - intros x Hf. rewrite (move_failure _ _ Hf); simpl. split_and!; eauto.
Qed.

(** C9. A failed request raises its alert and then rejects with the
    [SyntaxError] of [JSON.parse(undefined)], and so do [begin] and [move];
    [main] stops there, at the first request or in the turn that moves to
    [x] from [c] (forward, or back over the trail): the page is left as it
    was when the request went out, but for the alert, and no other request
    follows. *)
Theorem failed_request_ends_session w :
  (∀ method data reset,
     failure (serve (init method data reset) (remote w)).1 →
     req method data reset w =
     (Rejected SyntaxError,
      alerted
        (complaint method data (serve (init method data reset) (remote w)).1)
        (posted (init method data reset)
           (serve (init method data reset) (remote w)).2 w))) ∧
  (failure (serve (init GET None true) (remote w)).1 →
   begin w = req GET None true w) ∧
  (∀ x, failure (serve (init PUT (Some x) false) (remote w)).1 →
        move x w = req PUT (Some x) false w) ∧
  (failure (serve (init GET None true) (remote w)).1 →
   ∀ fuel,
     main fuel w =
     (Rejected SyntaxError,
      alerted (complaint GET None (serve (init GET None true) (remote w)).1)
        (posted (init GET None true)
           (serve (init GET None true) (remote w)).2 w))) ∧
  (∀ n c x t,
     frontier c (rooms w) = Some x ∧ t = CrumbRoom c :: trail w ∨
     frontier c (rooms w) = None ∧
       (∃ skipped b, trail w = skipped ++ CrumbRoom b :: t ∧ xid b = x ∧
                     x ∈ see c ∧ Forall (inert c) skipped) →
     failure (serve (init PUT (Some x) false) (remote w)).1 →
     explore (S n) (Some c) w =
     (Rejected SyntaxError,
      alerted
        (complaint PUT (Some x) (serve (init PUT (Some x) false) (remote w)).1)
        (posted (init PUT (Some x) false)
           (serve (init PUT (Some x) false) (remote w)).2
           (with_trail t w)))).
Proof.
  split_and!.
  - intros method data reset Hf. by apply req_failure.
  - intros Hf. by rewrite (begin_failure _ Hf), (req_failure _ _ _ _ Hf).
  - intros x Hf. by rewrite (move_failure _ _ Hf), (req_failure _ _ _ _ Hf).
  - intros Hf fuel. unfold main, mbind, M_bind, bind.
    by rewrite (begin_failure _ Hf).
  - intros n c x t Hturn Hf. cbn [explore]. unfold mbind, M_bind, bind.
    assert (turn c w = (c' ← move x; ret (Continue c')) (with_trail t w))
      as ->.
    { destruct Hturn as [[Hfr ->]|[Hfr Hback]].
      - by apply turn_forward.
      - apply turn_back; [done|]. by apply way_back_found. }
    unfold mbind, M_bind, bind.
    by rewrite (move_failure x (with_trail t w) Hf).
Qed.

End Failures.

(** Requests to a service with no room at all. *)
Lemma failed_request_changes_nothing_witness :
  let w := fresh (Session nowhere None) in
  (rooms (begin w).2 = rooms w ∧ trail (begin w).2 = trail w) ∧
  (rooms (move "B" w).2 = rooms w ∧ trail (move "B" w).2 = trail w).
Proof.
  intros w. destruct (failed_request_changes_nothing w) as [Hb Hm]. split.
  - destruct (Hb ltac:(reflexivity)) as (_ & Hr & Ht & _). by split.
  - destruct (Hm "B" ltac:(reflexivity)) as (_ & Hr & Ht & _). by split.
Defined.

(** The session ends at the first request, and in a turn that goes forward
    to a room that the service does not have. *)
Lemma failed_request_ends_session_witness :
  let w := fresh (Session nowhere None) in
  let w' := World {[ "B" := UNKNOWN ]} [] [] [] [] (Session nowhere None) in
  main 3 w =
  (Rejected SyntaxError,
   World ∅ [] [NotFound] [] [init GET None true] (Session nowhere None)) ∧
  explore 3 (Some roomA) w' =
  (Rejected SyntaxError,
   World {[ "B" := UNKNOWN ]} [CrumbRoom roomA] [NotFound] []
         [init PUT (Some "B") false] (Session nowhere None)).
Proof.
  intros w w'. split.
  - destruct (failed_request_ends_session w) as (_ & _ & _ & Hm & _).
    exact (Hm ltac:(reflexivity) 3%nat).
  - destruct (failed_request_ends_session w') as (_ & _ & _ & _ & Ht).
    apply (Ht 2%nat roomA "B" [CrumbRoom roomA]); [|reflexivity].
    left. split; reflexivity.
Defined.

(** ** Forward and back *)

Section Steps.

Context {service : Type} {api : Remote service}.
Implicit Types w : world service.

Lemma frontier_found c m x :
  frontier c m = Some x ↔
  ∃ l1 l2, see c = l1 ++ x :: l2 ∧ m !! x = Some UNKNOWN ∧
           ∀ y, y ∈ l1 → m !! y ≠ Some UNKNOWN.
Proof.
  unfold frontier. induction (see c) as [|z l IH]; simpl.
  - split; [done|]. intros (l1 & l2 & Hl & _). by destruct l1.
  - case_bool_decide as Hz.
    + split.
      * intros [= <-]. exists [], l. split_and!; [done..|].
        by intros y ?%elem_of_nil.
      * intros (l1 & l2 & Hl & Hx & Hl1). destruct l1 as [|z' l1].
        -- by simplify_eq/=.
        -- simplify_eq/=. destruct (Hl1 z' ltac:(by left) Hz).
    + rewrite IH. split.
      * intros (l1 & l2 & -> & Hx & Hl1). exists (z :: l1), l2.
        split_and!; [done..|]. intros y [->|Hy]%elem_of_cons; eauto.
      * intros (l1 & l2 & Hl & Hx & Hl1). destruct l1 as [|z' l1].
        -- by simplify_eq/=.
        -- simplify_eq/=. exists l1, l2. split_and!; [done..|].
           intros y Hy. apply Hl1. by right.
Qed.

Lemma frontier_none c m :
  frontier c m = None ↔ ∀ y, y ∈ see c → m !! y ≠ Some UNKNOWN.
Proof.
  unfold frontier. induction (see c) as [|z l IH]; simpl.
  - split; [|done]. by intros _ y ?%elem_of_nil.
  - case_bool_decide as Hz.
    + split; [done|]. intros Hall. destruct (Hall z ltac:(by left) Hz).
    + rewrite IH. split.
      * intros Hl y [->|Hy]%elem_of_cons; eauto.
      * intros Hall y Hy. apply Hall. by right.
Qed.

Lemma later_grows c w c' w' :
  later (c, w) (c', w') → grows (rooms w) (rooms w').
Proof.
  intros Hl. remember (c, w) as p eqn:Hp. remember (c', w') as q eqn:Hq.
  revert c w Hp. induction Hl as [p|c0 w0 c1 w1 p Ht Hl IH]; intros c w Hp.
  - simplify_eq. apply grows_refl.
  - simplify_eq. eapply grows_trans; [|by apply (IH eq_refl c1 w1)].
    pose proof (turn_grows c w) as Hg. by rewrite Ht in Hg.
Qed.

(** C7. The room that a turn goes forward to is the first identifier of
    [current.see], from the left, whose entry in the cache is [UNKNOWN];
    there is none exactly when no identifier of the list is [UNKNOWN]; and
    an identifier that holds a fetched room is not chosen in that turn or
    in any later one. *)
Theorem frontier_is_first_unknown :
  (∀ c (m : gmap string entry) x,
     frontier c m = Some x ↔
     ∃ l1 l2, see c = l1 ++ x :: l2 ∧ m !! x = Some UNKNOWN ∧
              ∀ y, y ∈ l1 → m !! y ≠ Some UNKNOWN) ∧
  (∀ c (m : gmap string entry),
     frontier c m = None ↔ ∀ y, y ∈ see c → m !! y ≠ Some UNKNOWN) ∧
  (∀ c w x,
     frontier c (rooms w) = Some x →
     turn c w =
     (trail_push (CrumbRoom c) ;; c' ← move x; ret (Continue c')) w) ∧
  (∀ c w c' w' x r,
     rooms w !! x = Some (Fetched r) → later (c, w) (c', w') →
     frontier c' (rooms w') ≠ Some x).
Proof.
  split_and!.
  - apply frontier_found.
  - apply frontier_none.
  - intros c w x Hf. unfold turn. by rewrite Hf.
  - intros c w c' w' x r Hx Hl Hf.
    apply frontier_found in Hf as (_ & _ & _ & Hu & _).
    destruct (later_grows _ _ _ _ Hl x) as [_ Hkeep].
    rewrite (Hkeep r Hx) in Hu. discriminate Hu.
Qed.


End Steps.

(** ** The trail and the canvas *)

Section Trail.

Context {service : Type} {api : Remote service}.
Implicit Types w : world service.

Lemma req_sent method data reset w :
  sent (req method data reset w).2 = sent w ++ [init method data reset].
Proof.
  rewrite req_run; simpl.
  destruct (serve (init method data reset) (remote w)).1 as [st text|];
    [|done].
  destruct (ok st); [|done]. by destruct text.
Qed.

Lemma cache_trail r w :
  trail (cache (Some r) w).2 = arrival (rooms w) r ++ trail w.
Proof. rewrite cache_room. unfold arrival. by case_bool_decide. Qed.

Lemma cache_keeps rm w :
  painted (cache rm w).2 = painted w ∧ sent (cache rm w).2 = sent w.
Proof.
  destruct rm as [r|]; [|done]. rewrite cache_room. by case_bool_decide.
Qed.

(** A move that comes back with a room: what it has changed. *)
Lemma move_arrives x w c' w' :
  move x w = (Resolved c', w') →
  ∃ r, c' = Some r ∧
       trail w' = arrival (rooms w) r ++ trail w ∧
       painted w' = painted w ++ [r] ∧
       sent w' = sent w ++ [init PUT (Some x) false].
Proof.
  rewrite move_run.
  pose proof (req_keeps PUT (Some x) false w) as (Hr & Ht & Hp).
  pose proof (req_sent PUT (Some x) false w) as Hs.
  destruct (req PUT (Some x) false w) as [[[r|]|e] w1]; [|done..].
  simpl in *. intros [= <- <-]. exists r. simpl.
  rewrite cache_trail, Hr, Ht.
  destruct (cache_keeps (Some r) w1) as [-> ->]. by rewrite Hp, Hs.
Qed.

(** The requests that were sent stay in the log. *)
Lemma move_sent x w : ∃ l, sent (move x w).2 = sent w ++ l.
Proof.
  rewrite move_run. pose proof (req_sent PUT (Some x) false w) as Hs.
  destruct (req PUT (Some x) false w) as [[[r|]|e] w1]; simpl in *; eauto.
  destruct (cache_keeps (Some r) w1) as [_ ->]. eauto.
Qed.

Lemma unwind_sent c t w : ∃ l, sent (unwind c t w).2 = sent w ++ l.
Proof.
  revert w. induction t as [|k t IH]; intros w.
  - exists []. by rewrite app_nil_r.
  - cbn [unwind]. unfold mbind, M_bind, bind, trail_set.
    destruct (crumb_xid k) as [x|]; [|apply (IH (with_trail t w))].
    case_bool_decide; [apply (move_sent x (with_trail t w))|].
    apply (IH (with_trail t w)).
Qed.

Lemma turn_sent c w : ∃ l, sent (turn c w).2 = sent w ++ l.
Proof.
  unfold turn. destruct (frontier c (rooms w)) as [x|].
  - unfold mbind, M_bind, bind, trail_push.
    pose proof (move_sent x (with_trail (CrumbRoom c :: trail w) w)) as Hs.
    by destruct (move x _) as [[?|?] ?].
  - case_bool_decide; [|exists []; by rewrite app_nil_r].
    unfold mbind, M_bind, bind. pose proof (unwind_sent c (trail w) w) as Hs.
    by destruct (unwind c _ w) as [[?|?] ?].
Qed.

Lemma explore_sent n c w : ∃ l, sent (explore n c w).2 = sent w ++ l.
Proof.
  revert c w. induction n as [|n IH]; intros c w;
    [exists []; by rewrite app_nil_r|].
  cbn [explore]. destruct c as [c|]; [|exists []; by rewrite app_nil_r].
  unfold mbind, M_bind, bind. destruct (turn_sent c w) as [l Hl].
  destruct (turn c w) as [[[c'|]|e] w1]; simpl in *; eauto.
  destruct (IH c' w1) as [l' Hl']. exists (l ++ l').
  by rewrite Hl', Hl, app_assoc.
Qed.

Lemma begin_keeps_canvas w : painted (begin w).2 = painted w.
Proof.
  rewrite begin_run. pose proof (req_keeps GET None true w) as (_ & _ & Hp).
  destruct (req GET None true w) as [[rm|e] w1]; simpl in *; [|done].
  by destruct (cache_keeps rm w1) as [-> _].
Qed.

(** A move that brings no room: it is rejected, and the cache and the
    trail are what they were. *)
Lemma move_no_room x w :
  no_room (serve (init PUT (Some x) false) (remote w)).1 →
  (∃ e, (move x w).1 = Rejected e) ∧
  rooms (move x w).2 = rooms w ∧ trail (move x w).2 = trail w.
Proof.
  intros [Hf|(st & Hok & Hrep)].
  - rewrite (move_failure _ _ Hf); simpl. eauto.
  - rewrite move_run, req_run. cbv zeta.
    destruct Hrep as [-> | ->]; simpl; rewrite Hok; simpl; eauto.
Qed.

(** C2, amended. When [begin] has fetched the first room and stored it,
    the trail holds one crumb, the identifier of that room. After that, a
    turn from a room with an [UNKNOWN] room in sight pushes the room and
    pops nothing, and a turn that goes back pops the crumbs down to the
    room that it goes to and pushes no room; either is done before the move
    is requested, and stays when the move brings no room and the turn is
    rejected. When the move brings a room, its [cache] call pushes the
    identifier of that room exactly when the room was not yet fetched. A
    turn that finds neither an [UNKNOWN] room nor a way back leaves the
    trail empty and sends nothing. Identifiers are plain. *)
Theorem trail_pushes_and_pops :
  (∀ (s s' : service) status r,
     serve (init GET None true) s = (Response status (JsonRoom r), s') →
     ok status = true → plain (xid r) →
     (begin (fresh s)).1 = Resolved (Some r) ∧
     rooms (begin (fresh s)).2 !! xid r = Some (Fetched r) ∧
     trail (begin (fresh s)).2 = [CrumbId (xid r)]) ∧
  (∀ c w x t,
     frontier c (rooms w) = Some x ∧ t = CrumbRoom c :: trail w ∨
     frontier c (rooms w) = None ∧
       (∃ skipped b, trail w = skipped ++ CrumbRoom b :: t ∧ xid b = x ∧
                     x ∈ see c ∧ Forall (inert c) skipped) →
     (∀ status c' s',
        serve (init PUT (Some x) false) (remote w)
        = (Response status (JsonRoom c'), s') →
        ok status = true → plain (xid c') →
        (turn c w).1 = Resolved (Continue (Some c')) ∧
        trail (turn c w).2 = arrival (rooms w) c' ++ t) ∧
     (no_room (serve (init PUT (Some x) false) (remote w)).1 →
      (∃ e, (turn c w).1 = Rejected e) ∧ trail (turn c w).2 = t) ∧
     sent (turn c w).2 = sent w ++ [init PUT (Some x) false]) ∧
  (∀ c w,
     frontier c (rooms w) = None → Forall (inert c) (trail w) →
     (turn c w).1 = Resolved (if bool_decide (trail w = []) then Break
                              else Continue (Some c)) ∧
     trail (turn c w).2 = [] ∧ sent (turn c w).2 = sent w).
Proof.
  split_and!.
  - intros s s' status r Hs Hok _.
    rewrite (begin_room (fresh s) status r s' Hs Hok), cache_room; simpl.
    rewrite bool_decide_eq_true_2 by (left; apply lookup_empty). simpl.
    by rewrite stored_lookup, bool_decide_eq_true_2.
  - intros c w x t Hturn.
    assert (turn c w = (c' ← move x; ret (Continue c')) (with_trail t w))
      as ->.
    { destruct Hturn as [[Hfr ->]|[Hfr Hback]].
      - by apply turn_forward.
      - apply turn_back; [done|]. by apply way_back_found. }
    unfold mbind, M_bind, bind. split_and!.
    + intros status c' s' Hs Hok _.
      rewrite (move_room x (with_trail t w) status c' s' Hs Hok); simpl.
      split; [done|]. by rewrite cache_trail.
    + intros Hno.
      destruct (move_no_room x (with_trail t w) Hno) as ([e He] & _ & Ht).
      destruct (move x (with_trail t w)) as [[c1|e1] w1]; simpl in *;
        [done|eauto].
    + pose proof (move_run x (with_trail t w)) as Hrun.
      pose proof (req_sent PUT (Some x) false (with_trail t w)) as Hs.
      rewrite Hrun.
      destruct (req PUT (Some x) false (with_trail t w)) as [[[r|]|e] w1];
        simpl in *; [|done..].
      by destruct (cache_keeps (Some r) w1) as [_ ->].
  - intros c w Hf Hin. apply way_back_lost in Hin.
    destruct (trail w) as [|k t] eqn:Ht.
    + rewrite turn_break by done. by split_and!.
    + rewrite turn_lost; [|done|by rewrite Ht..]. by split_and!.
Qed.

End Trail.

(** C2 as it is stated fails: when [begin] has stored the first room of
    the star, the trail is not empty. *)
Lemma trail_after_begin_is_not_empty :
  let w := fresh (Session star None) in
  (begin w).1 = Resolved (Some roomA) ∧
  rooms (begin w).2 !! "A" = Some (Fetched roomA) ∧
  trail (begin w).2 ≠ [].
Proof. split_and!; [reflexivity..|]. vm_compute. discriminate. Qed.

(** The trail of the star after [begin], and after the first turn. *)
Lemma trail_pushes_and_pops_witness :
  let w := fresh (Session star None) in
  trail (begin w).2 = [CrumbId "A"] ∧
  trail (turn roomA (begin w).2).2
  = [CrumbId "B"; CrumbRoom roomA; CrumbId "A"].
Proof.
  intros w. destruct (@trail_pushes_and_pops session _) as (Hb & Ht & _).
  split.
  - destruct (Hb (Session star None) (Session star (Some "A")) 200 roomA)
      as (_ & _ & Htrail); [reflexivity..|by apply (bool_decide_unpack _)|].
    exact Htrail.
  - destruct (Ht roomA (begin w).2 "B" [CrumbRoom roomA; CrumbId "A"])
      as (Hroom & _); [left; split; reflexivity|].
    destruct (Hroom 200 roomB (Session star (Some "B")))
      as [_ Htrail]; [reflexivity..|by apply (bool_decide_unpack _)|].
    exact Htrail.
Defined.

(** C1. [begin] does not paint, a move that comes back with a room paints
    that room once, and the walk of the star A -> [B, C], B -> [A],
    C -> [A] from A sends five requests and paints four rooms: B, A, C, A. *)
Theorem star_is_painted_four_times :
  (∀ service (api : Remote service) (w : world service),
     painted (begin w).2 = painted w) ∧
  (∀ service (api : Remote service) x (w w' : world service) c',
     move x w = (Resolved c', w') →
     ∃ r, c' = Some r ∧ painted w' = painted w ++ [r]) ∧
  (run_main star 6).1 = Resolved Done ∧
  sent (run_main star 6).2
  = [init GET None true; init PUT (Some "B") false;
     init PUT (Some "A") false; init PUT (Some "C") false;
     init PUT (Some "A") false] ∧
  painted (run_main star 6).2 = [roomB; roomA; roomC; roomA].
Proof.
  split_and!; [| |reflexivity..].
  - intros service api w. apply begin_keeps_canvas.
  - intros service api x w w' c' Hm.
    apply move_arrives in Hm as (r & -> & _ & Hp & _). eauto.
Qed.


(** In the star, B comes first from A, and A is not chosen from B. *)
Lemma frontier_is_first_unknown_witness :
  let w := (begin (fresh (Session star None))).2 in
  frontier roomA (rooms w) = Some "B" ∧
  frontier roomB (rooms (turn roomA w).2) ≠ Some "A".
Proof.
  intros w. destruct (@frontier_is_first_unknown session _)
    as (Hfirst & _ & _ & Hnever). split.
  - apply Hfirst. exists [], ["C"]. split_and!; [reflexivity..|].
    intros y Hy. by apply elem_of_nil in Hy.
  - apply (Hnever roomA w roomB (turn roomA w).2 "A" roomA); [reflexivity|].
    eapply later_turn; [|apply later_now]. vm_compute. reflexivity.
Defined.

(** ** The walk of a maze comes to an end *)

Lemma links_cover l e : e ∈ l → ∃ f, f ∈ links l ∧ same_link e f.
Proof.
  induction l as [|e0 l IH]; [by intros ?%elem_of_nil|].
  intros [->|Hin]%elem_of_cons; simpl.
  - case_bool_decide as Hex.
    + apply Exists_exists in Hex as (f & Hf & Hsame). eauto.
    + exists e0. split; [by left|by left].
  - destruct (IH Hin) as (f & Hf & Hsame).
    case_bool_decide; [eauto|]. exists f. split; [by right|done].
Qed.

Lemma arcs_elem g r y : r ∈ g → y ∈ see r → (xid r, y) ∈ arcs g.
Proof.
  intros Hr Hy. unfold arcs. apply list_elem_of_bind. exists r.
  split; [|done]. apply list_elem_of_bind. exists y. split; [by left|done].
Qed.

Lemma room_of_found g x r : room_of g x = Some r → r ∈ g ∧ xid r = x.
Proof.
  unfold room_of. intros Hf. apply find_some in Hf as [Hin Hx].
  apply list_elem_of_In in Hin. by apply bool_decide_eq_true in Hx.
Qed.

Lemma filter_length_le {A} (P Q : A → Prop) `{!∀ a, Decision (P a)}
    `{!∀ a, Decision (Q a)} (l : list A) :
  (∀ a, Q a → P a) → (length (filter Q l) ≤ length (filter P l))%nat.
Proof.
  intros HQP. induction l as [|a l IH]; [done|].
  rewrite !filter_cons. destruct (decide (Q a)) as [Hq|Hq].
  - rewrite decide_True by auto. simpl. lia.
  - destruct (decide (P a)); simpl; lia.
Qed.

Lemma filter_length_lt {A} (P Q : A → Prop) `{!∀ a, Decision (P a)}
    `{!∀ a, Decision (Q a)} (l : list A) a :
  (∀ a, Q a → P a) → a ∈ l → P a → ¬ Q a →
  (length (filter Q l) < length (filter P l))%nat.
Proof.
  intros HQP Hin Hp Hq. induction l as [|b l IH]; [by apply elem_of_nil in Hin|].
  rewrite !filter_cons. apply elem_of_cons in Hin as [<-|Hin].
  - rewrite decide_False, decide_True by done. simpl.
    pose proof (filter_length_le P Q l HQP). lia.
  - specialize (IH Hin). destruct (decide (Q b)) as [Hqb|Hqb].
    + rewrite decide_True by auto. simpl. lia.
    + destruct (decide (P b)); simpl; lia.
Qed.

Lemma rooms_on_app t t' : rooms_on (t ++ t') = (rooms_on t + rooms_on t')%nat.
Proof. induction t as [|[i|b] t IH]; simpl; lia. Qed.

Lemma grows_unexplored m m' e : grows m m' → unexplored m' e → unexplored m e.
Proof.
  intros Hg [H1|H2]; [left|right].
  - destruct (Hg e.1) as [Hle _]. lia.
  - destruct (Hg e.2) as [Hle _]. lia.
Qed.

Section Walk.

Variable mz : maze.
Hypothesis maze_closed : closed mz.

Implicit Types w : world session.

Lemma neighbour_is_room c x :
  c ∈ plan mz → x ∈ see c → is_Some (room_of (plan mz) x).
Proof.
  intros Hc Hx. unfold closed in maze_closed.
  rewrite Forall_forall in maze_closed. specialize (maze_closed c Hc).
  rewrite Forall_forall in maze_closed. by apply maze_closed.
Qed.

Lemma left_over_grows m m' :
  grows m m' → (left_over mz m' ≤ left_over mz m)%nat.
Proof.
  intros Hg. apply filter_length_le. intros e. by apply grows_unexplored.
Qed.

Lemma left_over_fetch m m' c x :
  grows m m' → c ∈ plan mz → x ∈ see c →
  (rank (m !! x) < 2)%nat →
  rank (m' !! xid c) = 2%nat → rank (m' !! x) = 2%nat →
  (left_over mz m' < left_over mz m)%nat.
Proof.
  intros Hg Hc Hx Hnew Hc' Hx'.
  destruct (links_cover (arcs (plan mz)) (xid c, x)) as (f & Hf & Hsame);
    [by apply arcs_elem|].
  apply (filter_length_lt _ _ _ f); [|done|..].
  - intros e. by apply grows_unexplored.
  - destruct Hsame as [<-|Heq]; [by right|].
    left. injection Heq as _ <-. done.
  - destruct f as [a b]. destruct Hsame as [[= <- <-]|[= <- <-]];
      intros [H1|H2]; simpl in *; lia.
Qed.

(** A move to a room in sight, from home. *)
Lemma move_to_neighbour c w x :
  at_home mz c w → x ∈ see c →
  ∃ r w', move x w = (Resolved (Some r), w') ∧ at_home mz r w' ∧
          trail w' = arrival (rooms w) r ++ trail w ∧
          sent w' = sent w ++ [init PUT (Some x) false] ∧
          xid r = x ∧
          (left_over mz (rooms w') + length (arrival (rooms w) r)
           ≤ left_over mz (rooms w))%nat.
Proof.
  intros (Hrem & Hc & Hall) Hx.
  pose proof (Hall _ _ Hc) as Hroom.
  destruct (room_of_found _ _ _ Hroom) as [Hin _].
  destruct (neighbour_is_room c x Hin Hx) as [r Hr].
  destruct (room_of_found _ _ _ Hr) as [_ Hxid].
  assert (serve (init PUT (Some x) false) (remote w)
          = (Response 200 (JsonRoom r), Session mz (Some x))) as Hserve.
  { rewrite Hrem. unfold serve, maze_remote, maze_serve; simpl.
    rewrite Hroom; simpl. rewrite bool_decide_eq_true_2 by done.
    by rewrite Hr. }
  exists r. eexists. split; [by apply (move_room x w 200 r _ Hserve)|].
  rewrite cache_room; simpl. unfold arrival.
  case_bool_decide as Hfresh; simpl.
  - assert (grows (rooms w) (stored (rooms w) r)) as Hg
      by by apply grows_stored.
    split_and!; try done.
    + split_and!; simpl.
      * by rewrite Hxid.
      * by rewrite stored_lookup, bool_decide_eq_true_2.
      * intros y r'. rewrite stored_lookup. case_bool_decide as Hy.
        -- intros [= <-]. by rewrite Hy, Hxid.
        -- destruct (rooms w !! y) as [e|] eqn:Hlook.
           ++ intros [= ->]. by apply Hall.
           ++ by case_bool_decide.
    + assert (left_over mz (stored (rooms w) r) < left_over mz (rooms w))%nat;
        [|lia].
      apply (left_over_fetch _ _ c x); try done.
      * rewrite <- Hxid. destruct Hfresh as [-> | ->]; simpl; lia.
      * destruct (Hg (xid c)) as [_ Hkeep]. by rewrite (Hkeep c Hc).
      * by rewrite <- Hxid, stored_lookup, bool_decide_eq_true_2.
  - split_and!; try done; [|lia]. split_and!; simpl; [by rewrite Hxid| |done].
    destruct (rooms w !! xid r) as [[|r']|] eqn:Hlook.
    + destruct Hfresh. by right.
    + f_equal. f_equal. specialize (Hall _ _ Hlook). rewrite Hxid in Hall.
      congruence.
    + destruct Hfresh. by left.
Qed.

(** A turn, from home: the loop is left, or it goes on from home again,
    nearer to its end and with no more to spend than before. *)
Lemma turn_from_home c w :
  at_home mz c w →
  turn c w = (Resolved Break, w) ∨
  ∃ c' w', turn c w = (Resolved (Continue (Some c')), w') ∧ at_home mz c' w' ∧
           (distance mz w' < distance mz w)%nat ∧ (budget mz w' ≤ budget mz w)%nat.
Proof.
  intros Hhome. destruct (frontier c (rooms w)) as [x|] eqn:Hf.
  - right. rewrite (turn_forward _ _ _ Hf).
    apply frontier_found in Hf as (l1 & l2 & Hsee & Hu & _).
    assert (x ∈ see c) as Hx.
    { rewrite Hsee. apply elem_of_app. right. by left. }
    destruct (move_to_neighbour c (with_trail (CrumbRoom c :: trail w) w) x)
      as (r & w' & Hm & Hhome' & Ht & Hs & Hxid & Hleft); [done..|].
    exists r, w'. unfold mbind, M_bind, bind. rewrite Hm. split; [done|].
    split; [done|]. simpl in *. unfold arrival in *.
    rewrite Hxid, bool_decide_eq_true_2 in * by (by right).
    unfold distance, budget. rewrite Ht, Hs, !length_app. simpl in *. lia.
  - destruct (way_back c (trail w)) as [[x rest]|] eqn:Hb.
    + right. rewrite (turn_back _ _ _ _ Hf Hb).
      apply way_back_found in Hb as (sk & b & Htrail & _ & Hx & _).
      destruct (move_to_neighbour c (with_trail rest w) x)
        as (r & w' & Hm & Hhome' & Ht & Hs & Hxid & Hleft); [done..|].
      exists r, w'. unfold mbind, M_bind, bind. rewrite Hm. split; [done|].
      split; [done|]. simpl in *. unfold distance, budget.
      rewrite Ht, Hs, Htrail, !length_app, !rooms_on_app. simpl.
      assert (rooms_on (arrival (rooms w) r) = 0)%nat as ->
        by (unfold arrival; by case_bool_decide).
      assert (length (arrival (rooms w) r) ≤ 1)%nat
        by (unfold arrival; case_bool_decide; simpl; lia).
      lia.
    + destruct (trail w) as [|k t] eqn:Ht.
      * left. by apply turn_break.
      * right. exists c, (with_trail [] w).
        rewrite turn_lost; [|done|by rewrite Ht..].
        split_and!; [done|done|..]; unfold distance, budget; simpl;
          rewrite Ht; simpl; lia.
Qed.

Lemma explore_from_home n c w :
  at_home mz c w → (distance mz w < n)%nat →
  ∃ w', explore n (Some c) w = (Resolved Done, w') ∧
        (budget mz w' ≤ budget mz w)%nat.
Proof.
  revert c w. induction n as [|n IH]; intros c w Hhome Hd; [lia|].
  cbn [explore]. unfold mbind, M_bind, bind.
  destruct (turn_from_home c w Hhome)
    as [-> | (c' & w' & -> & Hhome' & Hd' & Hb')]; [by exists w|].
  destruct (IH c' w' Hhome') as (w'' & Hrun & Hb''); [lia|].
  exists w''. split; [done|lia].
Qed.

(** C4, amended. The walk of a closed maze from its entrance comes to an
    end, and it sends at most 2 E + 1 requests: the first one, and at most
    2 E moves, where E is the number of edges of the maze. *)
Theorem walk_ends_within_twice_the_edges (r0 : room) :
  room_of (plan mz) (entrance mz) = Some r0 →
  ∃ fuel w',
    run_main mz fuel = (Resolved Done, w') ∧
    (length (sent w') ≤ 2 * edges mz + 1)%nat ∧
    hd_error (sent w') = Some (init GET None true) ∧
    (length (tail (sent w')) ≤ 2 * edges mz)%nat.
Proof.
  intros Hr0. destruct (room_of_found _ _ _ Hr0) as [Hin Hxid].
  set (w0 := World (stored ∅ r0) [CrumbId (xid r0)] [] []
                   [init GET None true] (Session mz (Some (entrance mz)))).
  assert (begin (fresh (Session mz None)) = (Resolved (Some r0), w0)) as Hb.
  { rewrite (begin_room _ 200 r0 (Session mz (Some (entrance mz)))).
    - rewrite cache_room; simpl.
      by rewrite bool_decide_eq_true_2 by (left; apply lookup_empty).
    - unfold serve, maze_remote, maze_serve; simpl. by rewrite Hr0.
    - done. }
  assert (at_home mz r0 w0) as Hhome.
  { split_and!; simpl.
    - by rewrite Hxid.
    - by rewrite stored_lookup, bool_decide_eq_true_2.
    - intros y r. rewrite stored_lookup, lookup_empty.
      case_bool_decide as Hy; [|by case_bool_decide].
      intros [= <-]. by rewrite Hy, Hxid. }
  destruct (explore_from_home (S (distance mz w0)) r0 w0 Hhome)
    as (w' & Hrun & Hbudget); [lia|].
  assert (sent w' = init GET None true :: tail (sent w')) as Hsent.
  { pose proof (explore_sent (S (distance mz w0)) (Some r0) w0) as [l Hl].
    rewrite Hrun in Hl. simpl in Hl. by rewrite Hl. }
  assert (length (sent w') ≤ 2 * edges mz + 1)%nat as Hle.
  { unfold budget in Hbudget. simpl in Hbudget.
    assert (left_over mz (stored ∅ r0) ≤ edges mz)%nat
      by apply length_filter.
    lia. }
  exists (S (distance mz w0)), w'. split_and!.
  - unfold run_main, main, mbind, M_bind, bind. by rewrite Hb.
  - done.
  - by rewrite Hsent.
  - rewrite Hsent in Hle. simpl in Hle. lia.
Qed.

End Walk.

(** C4 as it is stated fails: the first request counts. The walk of the
    lone room sends one request, with no edge at all, and the walk of the
    star sends five, with two edges. *)
Lemma first_request_is_not_an_edge :
  (closed lone ∧ edges lone = 0%nat ∧
   (run_main lone 2).1 = Resolved Done ∧
   ¬ (length (sent (run_main lone 2).2) ≤ 2 * edges lone)%nat) ∧
  (closed star ∧ edges star = 2%nat ∧
   (run_main star 6).1 = Resolved Done ∧
   ¬ (length (sent (run_main star 6).2) ≤ 2 * edges star)%nat).
Proof.
  split; (split_and!;
    [by apply (bool_decide_unpack _)|reflexivity|reflexivity|]);
    vm_compute; lia.
Qed.

(** The walk of the star. *)
Lemma walk_ends_within_twice_the_edges_witness :
  ∃ fuel w',
    run_main star fuel = (Resolved Done, w') ∧
    (length (sent w') ≤ 2 * edges star + 1)%nat ∧
    hd_error (sent w') = Some (init GET None true) ∧
    (length (tail (sent w')) ≤ 2 * edges star)%nat.
Proof.
  apply (walk_ends_within_twice_the_edges star) with (r0 := roomA).
  - by apply (bool_decide_unpack _).
  - reflexivity.
Defined.

(** ** What every run keeps *)

Section Runs.

Context {service : Type} {api : Remote service}.
Implicit Types w : world service.

Lemma arrived_eq r rq s w :
  arrived r rq s w =
  World (if bool_decide (rooms w !! xid r = None ∨
                         rooms w !! xid r = Some UNKNOWN)
         then stored (rooms w) r else rooms w)
        (arrival (rooms w) r ++ trail w) (alerts w) (painted w ++ [r])
        (sent w ++ [rq]) s.
Proof.
  unfold arrived, drawn, arrival. rewrite cache_room; simpl.
  by case_bool_decide.
Qed.

(** What comes of a move: a room, or a rejection with or without an
    alert. *)
Lemma move_outcome x w :
  let rq := init PUT (Some x) false in
  let s := (serve rq (remote w)).2 in
  (∃ r, move x w = (Resolved (Some r), arrived r rq s w)) ∨
  (∃ e, move x w = (Rejected e, posted rq s w)) ∨
  (∃ e n, move x w = (Rejected e, alerted n (posted rq s w))).
Proof.
  intros rq s. rewrite move_run, req_run. fold rq. cbv zeta. fold s.
  destruct (serve rq (remote w)).1 as [st text|]; [|right; right; eauto].
  destruct (ok st); [|right; right; eauto].
  destruct text as [r| |]; simpl; [left|right; left..]; eauto.
Qed.

Lemma begin_outcome w :
  let rq := init GET None true in
  let s := (serve rq (remote w)).2 in
  (∃ r, begin w = cache (Some r) (posted rq s w)) ∨
  (∃ e, begin w = (Rejected e, posted rq s w)) ∨
  (∃ e n, begin w = (Rejected e, alerted n (posted rq s w))).
Proof.
  intros rq s. rewrite begin_run, req_run. fold rq. cbv zeta. fold s.
  destruct (serve rq (remote w)).1 as [st text|]; [|right; right; eauto].
  destruct (ok st); [|right; right; eauto].
  destruct text as [r| |]; simpl; [left|right; left..]; eauto.
Qed.

(** What a turn does: it leaves the loop, it empties a trail that leads
    nowhere, or it moves to a room in sight. *)
Lemma turn_outcome c w :
  turn c w = (Resolved Break, w) ∨
  turn c w = (Resolved (Continue (Some c)), with_trail [] w) ∨
  ∃ x t, x ∈ see c ∧ heads c w x t ∧
         turn c w = (c' ← move x; ret (Continue c')) (with_trail t w).
Proof.
  destruct (frontier c (rooms w)) as [x|] eqn:Hf.
  - right; right. exists x, (CrumbRoom c :: trail w).
    rewrite (turn_forward _ _ _ Hf).
    apply frontier_found in Hf as (l1 & l2 & Hsee & Hu & _).
    split_and!; [|by left|done].
    rewrite Hsee. apply elem_of_app. right. by left.
  - destruct (way_back c (trail w)) as [[x t]|] eqn:Hb.
    + right; right. exists x, t. rewrite (turn_back _ _ _ _ Hf Hb).
      apply way_back_found in Hb as (sk & b & Ht & Hx & Hin & _).
      split_and!; [done| |done]. right. eauto.
    + destruct (trail w) as [|k t] eqn:Ht.
      * left. by apply turn_break.
      * right; left. apply turn_lost; [done|by rewrite Ht..].
Qed.

Lemma turn_leaves c w w' : turn c w = (Resolved Break, w') → w' = w.
Proof.
  destruct (turn_outcome c w) as [->| [->|(x & t & _ & _ & ->)]];
    [by intros [= <-]|done|].
  unfold mbind, M_bind, bind. by destruct (move x _) as [[?|?] ?].
Qed.

(** The rule of the loop: what holds of the current room and the page at
    every turn holds where the loop ends. *)
Lemma explore_rule (I : room → world service → Prop)
    (Qr Qe : world service → Prop) :
  (∀ c w, I c w → Qr w) →
  (∀ c w e w', I c w → turn c w = (Rejected e, w') → Qe w') →
  (∀ c w c' w', I c w → turn c w = (Resolved (Continue c'), w') →
                ∃ r, c' = Some r ∧ I r w') →
  ∀ n c w, I c w →
    match explore n (Some c) w with
    | (Resolved _, w') => Qr w'
    | (Rejected _, w') => Qe w'
    end.
Proof.
  intros Hr He Hstep. induction n as [|n IH]; intros c w Hi; simpl; [eauto|].
  unfold mbind, M_bind, bind.
  destruct (turn c w) as [[[c'|]|e] w'] eqn:Hturn; simpl; eauto.
  - destruct (Hstep _ _ _ _ Hi Hturn) as (r & -> & Hi'). by apply IH.
  - apply turn_leaves in Hturn as ->. eauto.
Qed.

(** The same rule, by what a turn does to the page. *)
Lemma walk_rule (I : room → world service → Prop)
    (Qr Qe : world service → Prop) :
  (∀ c w, I c w → Qr w) →
  (∀ c w, I c w → I c (with_trail [] w)) →
  (∀ c w x t r, I c w → x ∈ see c → heads c w x t →
     I r (arrived r (init PUT (Some x) false)
            (serve (init PUT (Some x) false) (remote w)).2
            (with_trail t w))) →
  (∀ c w x t, I c w → x ∈ see c → heads c w x t →
     Qe (posted (init PUT (Some x) false)
           (serve (init PUT (Some x) false) (remote w)).2 (with_trail t w)) ∧
     ∀ n, Qe (alerted n
                (posted (init PUT (Some x) false)
                   (serve (init PUT (Some x) false) (remote w)).2
                   (with_trail t w)))) →
  ∀ n c w, I c w →
    match explore n (Some c) w with
    | (Resolved _, w') => Qr w'
    | (Rejected _, w') => Qe w'
    end.
Proof.
  intros Hr Hlost Hmove Hfail. apply explore_rule; [done|..].
  - intros c w e w' Hi.
    destruct (turn_outcome c w) as [->| [->|(x & t & Hx & Hh & ->)]];
      [done..|].
    unfold mbind, M_bind, bind.
    destruct (Hfail c w x t Hi Hx Hh) as [Hq Hqa].
    destruct (move_outcome x (with_trail t w))
      as [[r ->]|[[e' ->]|(e' & n & ->)]]; [done|..];
      intros [= <- <-]; eauto.
  - intros c w c' w' Hi.
    destruct (turn_outcome c w) as [->| [->|(x & t & Hx & Hh & ->)]];
      [done| |].
    + intros [= <- <-]. eauto.
    + unfold mbind, M_bind, bind.
      destruct (move_outcome x (with_trail t w))
        as [[r ->]|[[e' ->]|(e' & n & ->)]]; [|done..].
      intros [= <- <-]. exists r. split; [done|]. by apply (Hmove c).
Qed.

Lemma main_rule (I : room → world service → Prop)
    (Qr Qe : world service → Prop) w0 :
  (∀ n c w, I c w →
     match explore n (Some c) w with
     | (Resolved _, w') => Qr w'
     | (Rejected _, w') => Qe w'
     end) →
  (∀ r, I r (cache (Some r)
               (posted (init GET None true)
                  (serve (init GET None true) (remote w0)).2 w0)).2) →
  Qe (posted (init GET None true)
        (serve (init GET None true) (remote w0)).2 w0) →
  (∀ n, Qe (alerted n
              (posted (init GET None true)
                 (serve (init GET None true) (remote w0)).2 w0))) →
  ∀ fuel,
    match main fuel w0 with
    | (Resolved _, w') => Qr w'
    | (Rejected _, w') => Qe w'
    end.
Proof.
  intros Hloop Hstart Hq Hqa fuel. unfold main, mbind, M_bind, bind.
  destruct (begin_outcome w0) as [[r ->]|[[e ->]|(e & n & ->)]]; [|done..].
  rewrite cache_room. specialize (Hstart r). rewrite cache_room in Hstart.
  by apply Hloop.
Qed.

(** *** The cache stays in order *)

Lemma tidy_note m x : tidy m → tidy (note m x).
Proof.
  intros Ht y r. rewrite note_lookup.
  destruct (m !! y) as [e|] eqn:Hy; [|by case_bool_decide].
  intros [= ->]. destruct (Ht y r Hy) as [Hx Hsee]. split; [done|].
  intros z Hz Hp. destruct (Hsee z Hz Hp) as [e He].
  rewrite note_lookup, He. eauto.
Qed.

Lemma tidy_stored m r : tidy m → tidy (stored m r).
Proof.
  intros Ht y r'. rewrite stored_lookup. case_bool_decide as Hy.
  - intros [= <-]. split; [done|]. intros z Hz _. rewrite stored_lookup.
    case_bool_decide; [eauto|]. destruct (m !! z); [eauto|].
    rewrite bool_decide_eq_true_2 by done. eauto.
  - destruct (m !! y) as [e|] eqn:Hlook; [|by case_bool_decide].
    intros [= ->]. destruct (Ht y r' Hlook) as [Hx Hsee]. split; [done|].
    intros z Hz Hp. destruct (Hsee z Hz Hp) as [e He].
    rewrite stored_lookup, He. case_bool_decide; eauto.
Qed.

Lemma tidy_cache rm w : tidy (rooms w) → tidy (rooms (cache rm w).2).
Proof.
  intros Ht. destruct rm as [r|]; [|done]. rewrite cache_room.
  case_bool_decide; [|done]. by apply tidy_stored.
Qed.

Lemma tidy_arrived r rq s w : tidy (rooms w) → tidy (rooms (arrived r rq s w)).
Proof.
  intros Ht. rewrite arrived_eq; simpl. case_bool_decide; [|done].
  by apply tidy_stored.
Qed.

Lemma tidy_calls ks w : tidy (rooms w) → tidy (rooms (calls ks w)).
Proof.
  revert w. induction ks as [|k ks IH]; intros w Ht; [done|].
  simpl. apply IH. destruct k as [rm|x]; simpl.
  - by apply tidy_cache.
  - rewrite remember_run. by apply tidy_note.
Qed.

Lemma tidy_main fuel w : tidy (rooms w) → tidy (rooms (main fuel w).2).
Proof.
  intros Ht.
  pose proof (main_rule (λ _ w, tidy (rooms w)) (λ w, tidy (rooms w))
                (λ w, tidy (rooms w)) w) as Hrule.
  specialize (Hrule ltac:(
    apply walk_rule; [done|done|
      intros ? ? ? ? ? ? _ _; by apply tidy_arrived|done])).
  specialize (Hrule ltac:(intros r; by apply tidy_cache) Ht (λ _, Ht) fuel).
  by destruct (main fuel w) as [[v|e] w'].
Qed.

(** X1. A cache in order stays in order, under every sequence of calls of
    [cache] and [remember] and in every run of [main]: each room is stored
    under its own identifier, and every room in its sight has an entry,
    unless its identifier is a property name that [rooms] inherits (such a
    name is never written). *)
Theorem cache_stays_tidy w :
  tidy (rooms w) →
  (∀ ks, tidy (rooms (calls ks w))) ∧ (∀ fuel, tidy (rooms (main fuel w).2)).
Proof.
  intros Ht. split; [intros ks; by apply tidy_calls|].
  intros fuel. by apply tidy_main.
Qed.

(** X6. For an identifier that holds a room, [cache] is a no-op that hands
    back its argument: the first record stays, and nothing is pushed on the
    trail. So [cache] twice on a room is [cache] once. *)
Theorem cache_again_changes_nothing (r r' : room) w :
  (known (rooms w) (xid r') →
   cache (Some r') w = (Resolved (Some r'), w)) ∧
  cache (Some r) (cache (Some r) w).2
  = (Resolved (Some r), (cache (Some r) w).2).
Proof.
  assert (∀ r w, known (rooms w) (xid r) →
                 cache (Some r) w = (Resolved (Some r), w)) as Hknown.
  { clear. intros r w [r0 Hr0]. rewrite cache_room.
    rewrite bool_decide_eq_false_2; [done|]. rewrite Hr0. by intros [|]. }
  split; [apply Hknown|]. apply Hknown. rewrite cache_room; simpl.
  case_bool_decide as Hfresh; simpl.
  - exists r. by rewrite stored_lookup, bool_decide_eq_true_2.
  - destruct (rooms w !! xid r) as [[|r0]|] eqn:Hl; [|by exists r0|];
      destruct Hfresh; eauto.
Qed.

(** *** Crumbs and requests *)

Lemma known_grows m m' x : grows m m' → known m x → known m' x.
Proof. intros Hg [r Hr]. exists r. by apply (Hg x). Qed.











(** *** Alerts and polygons *)

(** X3. A run of [main] that resolves has shown no alert, and a run that
    rejects has shown at most one. *)
Theorem at_most_one_alert fuel w :
  match main fuel w with
  | (Resolved _, w') => alerts w' = alerts w
  | (Rejected _, w') =>
      alerts w' = alerts w ∨ ∃ n, alerts w' = alerts w ++ [n]
  end.
Proof.
  apply (main_rule (λ _ w', alerts w' = alerts w)
           (λ w', alerts w' = alerts w)
           (λ w', alerts w' = alerts w ∨ ∃ n, alerts w' = alerts w ++ [n])).
  - apply walk_rule; [done|done|..].
    + intros c w1 x t r Ha _ _. by rewrite arrived_eq.
    + intros c w1 x t Ha _ _. simpl. rewrite Ha. eauto.
  - intros r. rewrite cache_room. by case_bool_decide.
  - by left.
  - intros n. right. by exists n.
Qed.

(** X5. One polygon for every move that comes back with a room, and none
    for the first request: when [main] resolves, it has painted one room
    less than it has sent requests, and when it rejects, one or two less. *)
Theorem one_polygon_per_move fuel w :
  match main fuel w with
  | (Resolved _, w') =>
      (length (painted w') + length (sent w) + 1
       = length (sent w') + length (painted w))%nat
  | (Rejected _, w') =>
      (length (painted w') + length (sent w) + 1
       ≤ length (sent w') + length (painted w)
       ≤ length (painted w') + length (sent w) + 2)%nat
  end.
Proof.
  apply (main_rule
           (λ _ w', length (painted w') + length (sent w) + 1
                    = length (sent w') + length (painted w))%nat).
  - apply walk_rule; [done|done|..].
    + intros c w1 x t r Hn _ _. rewrite arrived_eq; simpl.
      rewrite !length_app; simpl. lia.
    + intros c w1 x t Hn _ _.
      split; [|intros n]; simpl; rewrite !length_app; simpl; lia.
  - intros r. rewrite cache_room.
    case_bool_decide; simpl; rewrite length_app; simpl; lia.
  - simpl. rewrite length_app; simpl. lia.
  - intros n. simpl. rewrite length_app; simpl. lia.
Qed.

End Runs.

(** ** The walk of a maze where every room is seen from those it sees *)

(** The mazes of this part have plain identifiers only: on them the map of
    the model and the object [rooms] of the script hold the same entries
    all along the walk. *)

Section Tour.

Variable mz : maze.
Hypothesis maze_closed : closed mz.
Hypothesis maze_mutual : mutual mz.
Hypothesis maze_ordinary : ordinary mz.

Implicit Types w : world session.

Lemma in_sight_plain c y :
  room_of (plan mz) (xid c) = Some c → y ∈ see c → plain y.
Proof.
  intros Hc Hy. destruct (room_of_found _ _ _ Hc) as [Hin _].
  destruct maze_ordinary as [_ Hall]. rewrite Forall_forall in Hall.
  specialize (Hall c Hin). rewrite Forall_forall in Hall. by apply Hall.
Qed.

Lemma seen_back c x n :
  room_of (plan mz) (xid c) = Some c → x ∈ see c →
  room_of (plan mz) x = Some n → xid c ∈ see n.
Proof.
  intros Hc Hx Hn. destruct (room_of_found _ _ _ Hc) as [Hin _].
  unfold mutual in maze_mutual. rewrite Forall_forall in maze_mutual.
  specialize (maze_mutual c Hin). rewrite Forall_forall in maze_mutual.
  specialize (maze_mutual x Hx). by rewrite Hn in maze_mutual.
Qed.

(** A move to a room in sight comes back with the room of the maze. *)
Lemma maze_move c w x n :
  at_home mz c w → x ∈ see c → room_of (plan mz) x = Some n →
  move x w = (Resolved (Some n),
              arrived n (init PUT (Some x) false) (Session mz (Some x)) w).
Proof.
  intros (Hrem & Hc & Hall) Hx Hn. pose proof (Hall _ _ Hc) as Hroom.
  apply (move_room x w 200 n); [|done].
  rewrite Hrem. unfold serve, maze_remote, maze_serve; simpl.
  rewrite Hroom; simpl. rewrite bool_decide_eq_true_2 by done.
  by rewrite Hn.
Qed.

Lemma leads_back_skip c sk b rest :
  leads_back mz c (sk ++ CrumbRoom b :: rest) → Forall (inert c) sk →
  (∀ p, CrumbRoom p ∉ sk) ∧ xid b ∈ see c ∧
  room_of (plan mz) (xid b) = Some b ∧ leads_back mz b rest.
Proof.
  induction sk as [|k sk IH]; simpl; intros Hl Hin.
  - inversion Hl; subst. split; [|done]. intros p Hp. by apply elem_of_nil in Hp.
  - inversion Hin as [|? ? Hk Hrest]; subst. inversion Hl; subst.
    + destruct IH as [Hno Hb]; [done..|]. split; [|done].
      intros p [Hp|Hp]%elem_of_cons; [done|]. by apply (Hno p).
    + by destruct (Hk (xid p) eq_refl).
Qed.

Lemma leads_back_lost c t :
  leads_back mz c t → Forall (inert c) t → ∀ p, CrumbRoom p ∉ t.
Proof.
  induction 1 as [c|c i t Hl IH|c p t Hp Hroom Hl IH]; intros Hin q Hq.
  - by apply elem_of_nil in Hq.
  - inversion Hin; subst. apply elem_of_cons in Hq as [Hq|Hq]; [done|].
    by apply (IH ltac:(done) q).
  - inversion Hin as [|? ? Hk _]; subst. by destruct (Hk (xid p) eq_refl).
Qed.

(** A turn of the walk, on a trail that leads back: it leaves the loop,
    or it empties a trail without rooms, or it goes forward to a room that
    is [UNKNOWN], or back to the first room of the trail. *)
Lemma maze_turn c w :
  at_home mz c w → leads_back mz c (trail w) →
  (∀ p, CrumbRoom p ∈ trail w → rooms w !! xid p = Some (Fetched p)) →
  (turn c w = (Resolved Break, w) ∧
   frontier c (rooms w) = None ∧ trail w = []) ∨
  (turn c w = (Resolved (Continue (Some c)), with_trail [] w) ∧
   frontier c (rooms w) = None ∧ ∀ p, CrumbRoom p ∉ trail w) ∨
  (∃ n, turn c w
        = (Resolved (Continue (Some n)),
           World (stored (rooms w) n)
                 (CrumbId (xid n) :: CrumbRoom c :: trail w) (alerts w)
                 (painted w ++ [n])
                 (sent w ++ [init PUT (Some (xid n)) false])
                 (Session mz (Some (xid n)))) ∧
        xid n ∈ see c ∧ rooms w !! xid n = Some UNKNOWN ∧
        room_of (plan mz) (xid n) = Some n) ∨
  (∃ ids b rest,
     turn c w
     = (Resolved (Continue (Some b)),
        World (rooms w) rest (alerts w) (painted w ++ [b])
              (sent w ++ [init PUT (Some (xid b)) false])
              (Session mz (Some (xid b)))) ∧
     frontier c (rooms w) = None ∧
     trail w = ids ++ CrumbRoom b :: rest ∧ (∀ p, CrumbRoom p ∉ ids) ∧
     xid b ∈ see c ∧ room_of (plan mz) (xid b) = Some b ∧
     leads_back mz b rest).
Proof.
  intros Hhome Hl Hk. pose proof Hhome as (Hrem & Hc & Hall).
  pose proof (Hall _ _ Hc) as Hroom.
  destruct (room_of_found _ _ _ Hroom) as [Hin _].
  destruct (frontier c (rooms w)) as [x|] eqn:Hf.
  - right; right; left. rewrite (turn_forward _ _ _ Hf).
    apply frontier_found in Hf as (l1 & l2 & Hsee & Hu & _).
    assert (x ∈ see c) as Hx.
    { rewrite Hsee. apply elem_of_app. right. by left. }
    destruct (neighbour_is_room mz maze_closed c x Hin Hx) as [n Hn].
    destruct (room_of_found _ _ _ Hn) as [_ <-].
    exists n. unfold mbind, M_bind, bind.
    rewrite (maze_move c (with_trail (CrumbRoom c :: trail w) w) (xid n) n)
      by done.
    rewrite arrived_eq; simpl. unfold arrival.
    by rewrite !bool_decide_eq_true_2 by (by right).
  - destruct (way_back c (trail w)) as [[x rest]|] eqn:Hb.
    + right; right; right. rewrite (turn_back _ _ _ _ Hf Hb).
      apply way_back_found in Hb as (sk & b & Ht & <- & Hx & Hsk).
      rewrite Ht in Hl.
      destruct (leads_back_skip _ _ _ _ Hl Hsk) as (Hno & _ & Hb & Hrest).
      exists sk, b, rest. unfold mbind, M_bind, bind.
      rewrite (maze_move c (with_trail rest w) (xid b) b) by done.
      rewrite arrived_eq; simpl. unfold arrival.
      assert (rooms w !! xid b = Some (Fetched b)) as Hkb.
      { apply Hk. rewrite Ht. apply elem_of_app. right. by left. }
      rewrite !bool_decide_eq_false_2 by (rewrite Hkb; by intros [|]).
      done.
    + apply way_back_lost in Hb as Hinert.
      destruct (trail w) as [|k t] eqn:Ht.
      * left. by rewrite turn_break.
      * right; left. rewrite turn_lost; [|done|by rewrite Ht..].
        split_and!; [done..|]. rewrite <- Ht in *.
        by apply (leads_back_lost c).
Qed.

Lemma tour_turn c w c' w' :
  at_home mz c w → tour mz c w →
  turn c w = (Resolved (Continue (Some c')), w') → tour mz c' w'.
Proof.
  intros Hhome (Hl & Hk & Hf & Ht & Hr & He) Hturn.
  pose proof Hhome as (Hrem & Hc & Hall). pose proof (Hall _ _ Hc) as Hroom.
  destruct (maze_turn c w Hhome Hl Hk)
    as [[Heq _]|[(Heq & Hfr & Hno)|[(n & Heq & Hx & Hu & Hn)|
        (ids & b & rest & Heq & Hfr & Htrail & Hno & Hx & Hb & Hrest)]]];
    rewrite Heq in Hturn; [done|..]; injection Hturn as Hc' Hw';
    subst c' w'.
  - split_and!; simpl; [constructor| |..|done|done|done].
    + intros p Hp. by apply elem_of_nil in Hp.
    + intros x r Hx. destruct (Hf x r Hx) as [?|[(p & Hp & _)|?]]; eauto.
      by destruct (Hno p).
  - assert (grows (rooms w) (stored (rooms w) n)) as Hg
      by (apply grows_stored; by right).
    split_and!; simpl.
    + constructor. constructor; [|done..]. by apply (seen_back c (xid n)).
    + intros p [[=]|[[= ->]|Hp]%elem_of_cons]%elem_of_cons.
      * by apply (Hg (xid c)).
      * apply (Hg (xid p)). by apply Hk.
    + intros x r. rewrite stored_lookup. case_bool_decide as Hxn; [by left|].
      destruct (rooms w !! x) as [e|] eqn:Hlook; [|by case_bool_decide].
      intros [= ->]. right.
      destruct (Hf x r Hlook) as [->|[(p & Hp & <-)|Hall']].
      * left. exists c. split; [|done]. right. by left.
      * left. exists p. split; [|done]. by do 2 right.
      * right. intros y Hy. by apply (known_grows (rooms w)); eauto.
    + by apply tidy_stored.
    + intros y. rewrite stored_lookup. case_bool_decide as Hy.
      * intros _. subst y. apply Hr. by rewrite Hu.
      * destruct (rooms w !! y) as [e|] eqn:Hlook; [intros _; apply Hr; eauto|].
        case_bool_decide; [|by intros [? [=]]]. intros _.
        apply (reach_step mz (xid n) n); [|done..]. apply Hr. by rewrite Hu.
    + by apply (known_grows (rooms w)).
  - split_and!; simpl; [done| | |done..].
    + intros p Hp. apply Hk. rewrite Htrail. apply elem_of_app. right.
      by right.
    + intros x r Hlook. destruct (Hf x r Hlook) as [->|[(p & Hp & <-)|Hall']].
      * do 2 right. rewrite Hc in Hlook. injection Hlook as <-.
        intros y Hy. destruct (Ht _ _ Hc) as [_ Hsee].
        destruct (Hsee y Hy (in_sight_plain c y Hroom Hy)) as [[|r'] He'];
          [|by exists r'].
        pose proof (proj1 (frontier_none c (rooms w)) Hfr y Hy). done.
      * rewrite Htrail in Hp.
        apply elem_of_app in Hp as [Hp|[[= ->]|Hp]%elem_of_cons];
          [by destruct (Hno p)|by left|].
        right; left. eauto.
      * by do 2 right.
Qed.

Lemma gallery_turn r0 c w c' w' :
  at_home mz c w → tour mz c w → gallery mz r0 c w →
  xid r0 = entrance mz →
  turn c w = (Resolved (Continue (Some c')), w') → gallery mz r0 c' w'.
Proof.
  intros Hhome (Hl & Hk & _) [Hp Hq] Hr0 Hturn.
  pose proof Hhome as (Hrem & Hc & Hall).
  destruct (maze_turn c w Hhome Hl Hk)
    as [[Heq _]|[(Heq & Hfr & Hno)|[(n & Heq & Hx & Hu & Hn)|
        (ids & b & rest & Heq & Hfr & Htrail & Hno & Hx & Hb & Hrest)]]];
    rewrite Heq in Hturn; [done|..]; injection Hturn as Hc' Hw';
    subst c' w'.
  - split; simpl; [done|].
    destruct Hq as [(-> & Hnone & _ & Hsee)|[Hy [Hin|Hin]]].
    + left. split_and!; [done..| |done]. intros p Hp'.
      by apply elem_of_nil in Hp'.
    + right. eauto.
    + by destruct (Hno r0).
  - split; simpl.
    + intros x r. rewrite stored_lookup. case_bool_decide as Hxn.
      * intros [= <-]. right. apply elem_of_app. right. by left.
      * destruct (rooms w !! x) as [e|] eqn:Hlook; [|by case_bool_decide].
        intros [= ->]. destruct (Hp x r Hlook) as [?|Hin]; [by left|].
        right. apply elem_of_app. by left.
    + right. destruct Hq as [(-> & Hnone & _ & Hsee)|[Hy [Hin|Hin]]].
      * split.
        -- exists (xid n). split; [done|]. intros Heq'.
           rewrite Heq', Hc in Hu. done.
        -- right. right. by left.
      * split; [done|]. left. apply elem_of_app. by left.
      * split; [done|]. right. by do 2 right.
  - split; simpl.
    + intros x r Hlook. destruct (Hp x r Hlook) as [?|Hin]; [by left|].
      right. apply elem_of_app. by left.
    + destruct Hq as [(-> & _ & Hnone & _)|[Hy [Hin|Hin]]].
      * destruct (Hnone b). rewrite Htrail. apply elem_of_app. right.
        by left.
      * right. split; [done|]. left. apply elem_of_app. by left.
      * right. split; [done|]. rewrite Htrail in Hin.
        apply elem_of_app in Hin as [Hin|[[= ->]|Hin]%elem_of_cons].
        -- by destruct (Hno r0).
        -- left. apply elem_of_app. right. by left.
        -- by right.
Qed.

(** The walk ends, at home, with nothing in sight to fetch and an empty
    trail. *)
Lemma explore_tour r0 n c w :
  xid r0 = entrance mz →
  at_home mz c w → tour mz c w → gallery mz r0 c w →
  (distance mz w < n)%nat →
  ∃ c' w', explore n (Some c) w = (Resolved Done, w') ∧
           at_home mz c' w' ∧ tour mz c' w' ∧ gallery mz r0 c' w' ∧
           frontier c' (rooms w') = None ∧ trail w' = [].
Proof.
  intros Hr0. revert c w.
  induction n as [|n IH]; intros c w Hhome Ht Hg Hd; [lia|].
  cbn [explore]. unfold mbind, M_bind, bind.
  destruct (turn_from_home mz maze_closed c w Hhome)
    as [Heq | (c' & w' & Heq & Hhome' & Hd' & _)]; rewrite Heq.
  - exists c, w. split_and!; try done.
    + destruct Ht as (Hl & Hk & _).
      destruct (maze_turn c w Hhome Hl Hk)
        as [(_ & Hf & _)|[[Heq' _]|[(? & Heq' & _)|(? & ? & ? & Heq' & _)]]];
        [done|rewrite Heq in Heq'; done..].
    + destruct Ht as (Hl & Hk & _).
      destruct (maze_turn c w Hhome Hl Hk)
        as [(_ & _ & Hf)|[[Heq' _]|[(? & Heq' & _)|(? & ? & ? & Heq' & _)]]];
        [done|rewrite Heq in Heq'; done..].
  - apply IH; [done| | |lia].
    + by apply (tour_turn c w).
    + by apply (gallery_turn r0 c w).
Qed.

Lemma walk_tour r0 :
  room_of (plan mz) (entrance mz) = Some r0 →
  ∃ fuel c w,
    run_main mz fuel = (Resolved Done, w) ∧
    at_home mz c w ∧ tour mz c w ∧ gallery mz r0 c w ∧
    frontier c (rooms w) = None ∧ trail w = [].
Proof.
  intros Hr0. destruct (room_of_found _ _ _ Hr0) as [Hin Hxid].
  set (w0 := World (stored ∅ r0) [CrumbId (xid r0)] [] []
                   [init GET None true] (Session mz (Some (entrance mz)))).
  assert (begin (fresh (Session mz None)) = (Resolved (Some r0), w0)) as Hb.
  { rewrite (begin_room _ 200 r0 (Session mz (Some (entrance mz)))).
    - rewrite cache_room; simpl.
      by rewrite bool_decide_eq_true_2 by (left; apply lookup_empty).
    - unfold serve, maze_remote, maze_serve; simpl. by rewrite Hr0.
    - done. }
  assert (stored ∅ r0 !! xid r0 = Some (Fetched r0)) as Hown
    by by rewrite stored_lookup, bool_decide_eq_true_2.
  assert (∀ y r, stored ∅ r0 !! y = Some (Fetched r) → y = xid r0 ∧ r = r0)
    as Honly.
  { intros y r. rewrite stored_lookup, lookup_empty.
    case_bool_decide; [by intros [= <-]|by case_bool_decide]. }
  assert (at_home mz r0 w0) as Hhome.
  { split_and!; simpl; [by rewrite Hxid|done|].
    intros y r Hy. destruct (Honly y r Hy) as [-> ->]. by rewrite Hxid. }
  assert (tour mz r0 w0) as Ht.
  { split_and!; simpl.
    - constructor. constructor.
    - intros p [[=]|Hp%elem_of_nil]%elem_of_cons. done.
    - intros y r Hy. left. by destruct (Honly y r Hy).
    - apply tidy_stored. intros y r. by rewrite lookup_empty.
    - intros y. rewrite stored_lookup, lookup_empty.
      case_bool_decide as Hy; [intros _; subst y; rewrite Hxid; constructor|].
      case_bool_decide; [|by intros [? [=]]]. intros _.
      apply (reach_step mz (entrance mz) r0); [constructor|done..].
    - exists r0. by rewrite <- Hxid. }
  assert (gallery mz r0 r0 w0) as Hg.
  { split; simpl.
    - intros y r Hy. left. destruct (Honly y r Hy) as [-> _]. done.
    - left. split_and!; [done..| |].
      + intros p [[=]|Hp%elem_of_nil]%elem_of_cons. done.
      + intros y Hy Hne. rewrite stored_lookup, lookup_empty.
        by rewrite bool_decide_eq_false_2, bool_decide_eq_true_2. }
  destruct (explore_tour r0 (S (distance mz w0)) r0 w0 Hxid Hhome Ht Hg)
    as (c & w & Hrun & Hend); [lia|].
  exists (S (distance mz w0)), c, w. split; [|done].
  unfold run_main, main, mbind, M_bind, bind. by rewrite Hb.
Qed.

(** Where the walk ends, the rooms that can be reached are the rooms of
    the cache. *)
Lemma tour_complete c w x :
  at_home mz c w → tour mz c w →
  frontier c (rooms w) = None → trail w = [] →
  reach mz x →
  ∃ r, room_of (plan mz) x = Some r ∧ rooms w !! x = Some (Fetched r).
Proof.
  intros (_ & Hc & Hall) (_ & _ & Hf & Ht & _ & He) Hfr Htrail.
  assert (∀ y, known (rooms w) y →
               ∃ r, room_of (plan mz) y = Some r ∧
                    rooms w !! y = Some (Fetched r)) as Hknown.
  { intros y [r Hr]. exists r. split; [by apply Hall|done]. }
  induction 1 as [|x r y Hx IH Hroom Hy]; [by apply Hknown|].
  destruct IH as (r' & Hroom' & Hlook). rewrite Hroom in Hroom'.
  injection Hroom' as <-. apply Hknown.
  destruct (Hf x r Hlook) as [->|[(p & Hp & _)|Hsee]]; [| |by apply Hsee].
  - rewrite Hc in Hlook. injection Hlook as <-.
    destruct (Ht _ _ Hc) as [_ Hsee].
    destruct (Hsee y Hy (in_sight_plain c y (Hall _ _ Hc) Hy)) as [[|r'] He'].
    + by destruct (proj1 (frontier_none c (rooms w)) Hfr y Hy).
    + by exists r'.
  - rewrite Htrail in Hp. by apply elem_of_nil in Hp.
Qed.

(** X7. The walk of a closed maze where every room is seen from the rooms
    that it sees, and where no identifier is a property name that [rooms]
    inherits, comes to an end with an empty trail and with every room that
    can be reached from the entrance in the cache, as the room of the maze;
    the cache holds nothing else, and nothing [UNKNOWN]. *)
Theorem walk_fetches_every_room (r0 : room) :
  room_of (plan mz) (entrance mz) = Some r0 →
  ∃ fuel w,
    run_main mz fuel = (Resolved Done, w) ∧ trail w = [] ∧
    ∀ x, (reach mz x →
          ∃ r, room_of (plan mz) x = Some r ∧
               rooms w !! x = Some (Fetched r)) ∧
         (is_Some (rooms w !! x) → reach mz x) ∧
         rooms w !! x ≠ Some UNKNOWN.
Proof.
  intros Hr0.
  destruct (walk_tour r0 Hr0) as (fuel & c & w & Hrun & Hhome & Ht & _ & Hfr & Htrail).
  exists fuel, w. split_and!; [done..|]. intros x.
  assert (is_Some (rooms w !! x) → reach mz x) as Hreach
    by (destruct Ht as (_ & _ & _ & _ & Hr & _); apply Hr).
  split_and!; [by apply (tour_complete c)|done|].
  intros Hu.
  destruct (tour_complete c w x Hhome Ht Hfr Htrail) as (r & _ & Hr);
    [apply Hreach; by rewrite Hu|].
  by rewrite Hu in Hr.
Qed.

(** X8. On such a maze (closed, every room seen from the rooms that it
    sees, no identifier a property name that [rooms] inherits) the walk
    paints every room that can be reached, but for the entrance, which it
    paints exactly when it sees another room. *)
Theorem walk_paints_every_room_but_the_first (r0 : room) :
  room_of (plan mz) (entrance mz) = Some r0 →
  ∃ fuel w,
    run_main mz fuel = (Resolved Done, w) ∧
    (∀ x r, reach mz x → x ≠ entrance mz →
            room_of (plan mz) x = Some r → r ∈ painted w) ∧
    (r0 ∈ painted w ↔ ∃ y, y ∈ see r0 ∧ y ≠ entrance mz).
Proof.
  intros Hr0. destruct (room_of_found _ _ _ Hr0) as [_ Hxid].
  destruct (walk_tour r0 Hr0)
    as (fuel & c & w & Hrun & Hhome & Ht & [Hp Hq] & Hfr & Htrail).
  exists fuel, w. split_and!; [done|..].
  - intros x r Hx Hne Hroom.
    destruct (tour_complete c w x Hhome Ht Hfr Htrail Hx) as (r' & Hr' & Hl).
    rewrite Hroom in Hr'. injection Hr' as <-.
    by destruct (Hp x r Hl).
  - rewrite <- Hxid.
    destruct Hq as [(-> & Hnone & _ & Hsee)|[Hy [Hin|Hin]]].
    + split.
      * rewrite Hnone. by intros ?%elem_of_nil.
      * intros (y & Hy & Hne).
        by destruct (proj1 (frontier_none r0 (rooms w)) Hfr y Hy (Hsee y Hy Hne)).
    + done.
    + rewrite Htrail in Hin. by apply elem_of_nil in Hin.
Qed.

End Tour.

(** The star is walked through, and all of it is painted. *)
Lemma walk_fetches_every_room_witness :
  ∃ fuel w,
    run_main star fuel = (Resolved Done, w) ∧ trail w = [] ∧
    ∀ x, (reach star x →
          ∃ r, room_of (plan star) x = Some r ∧
               rooms w !! x = Some (Fetched r)) ∧
         (is_Some (rooms w !! x) → reach star x) ∧
         rooms w !! x ≠ Some UNKNOWN.
Proof.
  apply (walk_fetches_every_room star) with (r0 := roomA).
  - by apply (bool_decide_unpack _).
  - by apply (bool_decide_unpack _).
  - by apply (bool_decide_unpack _).
  - reflexivity.
Defined.

Lemma walk_paints_every_room_but_the_first_witness :
  ∃ fuel w,
    run_main star fuel = (Resolved Done, w) ∧
    (∀ x r, reach star x → x ≠ entrance star →
            room_of (plan star) x = Some r → r ∈ painted w) ∧
    (roomA ∈ painted w ↔ ∃ y, y ∈ see roomA ∧ y ≠ entrance star).
Proof.
  apply (walk_paints_every_room_but_the_first star) with (r0 := roomA).
  - by apply (bool_decide_unpack _).
  - by apply (bool_decide_unpack _).
  - by apply (bool_decide_unpack _).
  - reflexivity.
Defined.

(** ** The view box *)

Section ViewBox.

Variable A : arith.
Hypothesis A_orderly : orderly A.

Implicit Types v : viewBox A.

Lemma frame_app v l l' : frame (frame v l) l' = frame v (l ++ l').
Proof. unfold frame. by rewrite foldl_app. Qed.

Lemma widen_grows v pos :
  nle A (vb_x (widen v pos)) (vb_x v) ∧ nle A (vb_y (widen v pos)) (vb_y v) ∧
  nle A (vb_width v) (vb_width (widen v pos)) ∧
  nle A (vb_height v) (vb_height (widen v pos)).
Proof.
  destruct A_orderly. unfold widen; simpl. split_and!; auto.
Qed.

Lemma frame_grows v corners :
  nle A (vb_x (frame v corners)) (vb_x v) ∧
  nle A (vb_y (frame v corners)) (vb_y v) ∧
  nle A (vb_width v) (vb_width (frame v corners)) ∧
  nle A (vb_height v) (vb_height (frame v corners)).
Proof.
  revert v. induction corners as [|pos l IH]; intros v.
  - destruct A_orderly. split_and!; simpl; auto.
  - destruct (IH (widen v pos)) as (Hx & Hy & Hw & Hh).
    destruct (widen_grows v pos) as (Hx' & Hy' & Hw' & Hh').
    pose proof (nle_trans A A_orderly) as Htrans.
    split_and!; simpl; eauto.
Qed.

(** X9. [paint] only widens the view box: its left and top edges do not
    move right or down, and its width and height do not shrink. *)
Theorem view_box_only_widens v corners :
  nle A (vb_x (frame v corners)) (vb_x v) ∧
  nle A (vb_y (frame v corners)) (vb_y v) ∧
  nle A (vb_width v) (vb_width (frame v corners)) ∧
  nle A (vb_height v) (vb_height (frame v corners)).
Proof. apply frame_grows. Qed.

(** X10. After [paint], the left and top edges of the view box are at
    most [pos.x - MARGIN] and [pos.y - MARGIN] for every corner [pos] of
    the room. *)
Theorem corners_clear_left_and_top v corners pos :
  pos ∈ corners →
  nle A (vb_x (frame v corners)) (nsub A pos.1 (MARGIN A)) ∧
  nle A (vb_y (frame v corners)) (nsub A pos.2 (MARGIN A)).
Proof.
  pose proof (nle_trans A A_orderly) as Htrans.
  intros (l1 & l2 & ->)%list_elem_of_split.
  rewrite <- frame_app. unfold frame at 1 3. simpl. fold (frame (widen (frame v l1) pos) l2).
  destruct (frame_grows (widen (frame v l1) pos) l2) as (Hx & Hy & _).
  split.
  - eapply Htrans; [exact Hx|]. apply (nmin_r A A_orderly).
  - eapply Htrans; [exact Hy|]. apply (nmin_r A A_orderly).
Qed.

(** X11. The last corner of a room always fits: the width is at least
    [pos.x - x + MARGIN] for it, with [x] the left edge that [paint] sets.
    For the other corners this holds when no corner after them moves the
    left edge; and likewise for the height. *)
Theorem corners_fit_when_edges_rest v before pos after :
  Forall (λ q, nmin A (vb_x (frame v (before ++ [pos])))
                 (nsub A q.1 (MARGIN A))
               = vb_x (frame v (before ++ [pos]))) after →
  Forall (λ q, nmin A (vb_y (frame v (before ++ [pos])))
                 (nsub A q.2 (MARGIN A))
               = vb_y (frame v (before ++ [pos]))) after →
  let v' := frame v (before ++ pos :: after) in
  nle A (nadd A (nsub A pos.1 (vb_x v')) (MARGIN A)) (vb_width v') ∧
  nle A (nadd A (nsub A pos.2 (vb_y v')) (MARGIN A)) (vb_height v').
Proof.
  pose proof (nle_trans A A_orderly) as Htrans.
  intros Hx Hy v'.
  assert (before ++ pos :: after = (before ++ [pos]) ++ after) as Heq
    by by rewrite <- app_assoc.
  subst v'. rewrite Heq, <- frame_app.
  set (v1 := frame v (before ++ [pos])) in *.
  assert (nle A (nadd A (nsub A pos.1 (vb_x v1)) (MARGIN A)) (vb_width v1) ∧
          nle A (nadd A (nsub A pos.2 (vb_y v1)) (MARGIN A)) (vb_height v1))
    as [Hw1 Hh1].
  { subst v1. rewrite <- frame_app. unfold frame at 1 3 5 7. simpl.
    split; apply (nmax_r A A_orderly). }
  assert (vb_x (frame v1 after) = vb_x v1 ∧ vb_y (frame v1 after) = vb_y v1)
    as [-> ->].
  { clear Hw1 Hh1 Heq. generalize dependent v1. intros v1.
    induction after as [|q l IH] using rev_ind; [done|].
    intros [Hxl Hxq]%Forall_app [Hyl Hyq]%Forall_app.
    destruct (IH Hxl Hyl) as [IHx IHy].
    rewrite <- frame_app. unfold frame at 1 3. simpl.
    inversion Hxq; inversion Hyq; subst. rewrite IHx, IHy. done. }
  destruct (frame_grows v1 after) as (_ & _ & Hw & Hh). eauto.
Qed.

End ViewBox.

Lemma whole_orderly : orderly whole.
Proof. constructor; simpl; lia. Qed.

(** On safe numbers the computation of [paint] stays where doubles are
    exact: the view box that it finds is within the bounds of [exact_box],
    and so every difference and sum that it forms is below 2^53 in size. *)
Lemma widen_exact (v : viewBox whole) (p : Z * Z) :
  exact_box v → safe_corner p → exact_box (widen v p).
Proof.
  unfold exact_box, safe_corner, safe. destruct v as [x y wd ht], p as [p1 p2].
  simpl. lia.
Qed.

Lemma frame_exact (v : viewBox whole) (corners : list (Z * Z)) :
  safe_box v → Forall safe_corner corners → exact_box (frame v corners).
Proof.
  intros Hv Hc. assert (exact_box v) as Hb.
  { unfold safe_box, exact_box, safe in *. lia. }
  clear Hv. revert v Hb. induction Hc as [|p l Hp Hl IH]; intros v Hb; [done|].
  unfold frame. cbn [foldl]. apply IH. by apply widen_exact.
Qed.

(** X12. On whole numbers up to 2^51 in size, on which the arithmetic of
    the script is exact: a corner that lies left of a view box of width 2
    or more does not stretch the box, it shifts it: the left edge goes to
    the corner less [MARGIN], the width stays, and whatever was within
    that shift of the right edge is left outside. The numbers computed are
    within the bounds of [exact_box]. *)
Theorem corner_on_the_left_shifts_the_box
    (v : viewBox whole) (corners : list (Z * Z)) (q : Z * Z) :
  let v' := frame v corners in
  let v'' := frame v (corners ++ [q]) in
  safe_box v → Forall safe_corner corners → safe_corner q →
  q.1 - 1 ≤ vb_x v' → 2 ≤ vb_width v' →
  exact_box v' ∧ exact_box v'' ∧
  vb_x v'' = q.1 - 1 ∧ vb_width v'' = vb_width v' ∧
  ∀ p : Z * Z, safe_corner p →
    q.1 - 1 + vb_width v' < p.1 → vb_x v'' + vb_width v'' < p.1.
Proof.
  intros v' v'' Hv Hc Hsq Hq Hw.
  assert (exact_box v') as He by by apply frame_exact.
  assert (exact_box v'') as He'.
  { apply frame_exact; [done|]. apply Forall_app. split; [done|].
    by constructor. }
  split; [done|]. split; [done|].
  subst v''. rewrite <- frame_app. fold v'.
  unfold frame at 1 2 3 4. simpl. split_and!; [lia|lia|]. intros p _ Hp. lia.
Qed.

Lemma view_box_only_widens_witness :
  let v := frame (blank) [(10, 5); (-3, 7)] in
  vb_x v ≤ 0 ∧ vb_y v ≤ 0 ∧ 0 ≤ vb_width v ∧ 0 ≤ vb_height v.
Proof.
  exact (view_box_only_widens whole whole_orderly blank
           [(10, 5); (-3, 7)]).
Defined.

Lemma corners_clear_left_and_top_witness :
  let v := frame (blank) [(10, 5); (-3, 7)] in
  vb_x v ≤ 10 - 1 ∧ vb_y v ≤ 5 - 1.
Proof.
  apply (corners_clear_left_and_top whole whole_orderly blank
           [(10, 5); (-3, 7)] (10, 5)).
  by left.
Defined.

Lemma corners_fit_when_edges_rest_witness :
  let v := frame (blank) [(-3, 7); (10, 5); (4, 4)] in
  10 - vb_x v + 1 ≤ vb_width v ∧ 5 - vb_y v + 1 ≤ vb_height v.
Proof.
  apply (corners_fit_when_edges_rest whole whole_orderly blank
           [(-3, 7)] (10, 5) [(4, 4)]).
  - repeat constructor.
  - repeat constructor.
Defined.

(** A room at (10, 0), and then one at (-100, 0): the first is left
    outside. *)
Lemma corner_on_the_left_shifts_the_box_witness :
  let v := frame (blank) [(10, 0); (-100, 0)] in
  vb_x v = -101 ∧ vb_width v = 11 ∧ vb_x v + vb_width v < 10.
Proof.
  destruct (corner_on_the_left_shifts_the_box blank [(10, 0)]
              (-100, 0)) as (_ & _ & Hx & Hw & Hout).
  - unfold safe_box, safe. simpl. lia.
  - repeat constructor; simpl; lia.
  - unfold safe_corner, safe. simpl. lia.
  - simpl. lia.
  - simpl. lia.
  - split_and!; [exact Hx|exact Hw|]. apply (Hout (10, 0)).
    + unfold safe_corner, safe. simpl. lia.
    + simpl. lia.
Defined.

(** ** The address of the API *)

Lemma append_cons a (s t : string) : String a s +:+ t = String a (s +:+ t).
Proof. reflexivity. Qed.

Lemma append_assoc (s t u : string) : (s +:+ t) +:+ u = s +:+ (t +:+ u).
Proof.
  induction s as [|a s IH]; [reflexivity|].
  rewrite (append_cons a s), !(append_cons a). by rewrite IH.
Qed.

Lemma has_slash_app s t : has_slash (s +:+ t) = has_slash s || has_slash t.
Proof.
  induction s as [|a s IH]; [reflexivity|]. rewrite append_cons.
  cbn [has_slash]. by rewrite IH, orb_assoc.
Qed.

Lemma strip_page_none s : has_slash s = false → strip_page s = EmptyString.
Proof. destruct s as [|a s]; [done|]. cbn [strip_page]. by intros ->. Qed.

Lemma strip_page_last d t :
  has_slash t = false → strip_page (d +:+ "/" +:+ t) = d +:+ "/".
Proof.
  intros Ht. induction d as [|a d IH].
  - change (strip_page (String "/" t) = String "/" EmptyString).
    cbn [strip_page has_slash].
    rewrite bool_decide_eq_true_2 by done. simpl.
    by rewrite (strip_page_none t Ht).
  - rewrite !(append_cons a d). cbn [strip_page].
    assert (has_slash (String a (d +:+ "/" +:+ t)) = true) as ->.
    { cbn [has_slash]. rewrite has_slash_app.
      change (has_slash ("/" +:+ t)) with (true || has_slash t).
      by rewrite !orb_true_r. }
    by rewrite IH.
Qed.

Lemma has_slash_strip s : has_slash (strip_page s) = has_slash s.
Proof.
  induction s as [|a s IH]; [done|]. cbn [strip_page].
  destruct (has_slash (String a s)) eqn:Hs; [|done].
  cbn [has_slash] in *. by rewrite IH.
Qed.

Lemma strip_page_rest s :
  ∃ t, has_slash t = false ∧ s = strip_page s +:+ t.
Proof.
  induction s as [|a s (t & Ht & IH)]; [by exists EmptyString|].
  cbn [strip_page]. destruct (has_slash (String a s)) eqn:Hs.
  - exists t. split; [done|]. by rewrite append_cons, <- IH.
  - by exists (String a s).
Qed.

(** X13. [replace(/[^/]*$/, "")] keeps a string up to its last "/": what
    it cuts off has no "/", a string without "/" is cut off whole, and a
    second cut changes nothing. *)
Theorem strip_page_keeps_up_to_last_slash :
  (∀ d t, has_slash t = false → strip_page (d +:+ "/" +:+ t) = d +:+ "/") ∧
  (∀ s, has_slash s = false → strip_page s = EmptyString) ∧
  (∀ s, ∃ t, has_slash t = false ∧ s = strip_page s +:+ t) ∧
  (∀ s, strip_page (strip_page s) = strip_page s).
Proof.
  split_and!; [apply strip_page_last|apply strip_page_none
              |apply strip_page_rest|].
  induction s as [|a s IH]; [done|]. cbn [strip_page].
  destruct (has_slash (String a s)) eqn:Hs; [|done].
  cbn [strip_page].
  assert (has_slash (String a (strip_page s)) = true) as ->.
  { cbn [has_slash] in *. by rewrite has_slash_strip. }
  by rewrite IH.
Qed.

(** X14. For a page at [d/page] that is opened with the fragment [hash],
    the walker talks to [d/../api/] followed by the fragment without its
    first character, as long as the fragment has no "/". A fragment
    [#n1/n2] stays in the address, up to its last "/". *)
Theorem BASE_URL_of_page :
  (∀ d page hash,
     has_slash page = false → has_slash hash = false →
     BASE_URL (d +:+ "/" +:+ page +:+ hash) hash
     = d +:+ "/../api/" +:+ substring1 hash ∧
     BASE_URL_create (d +:+ "/" +:+ page +:+ hash) = d +:+ "/../api/") ∧
  (∀ location n1 n2,
     has_slash n2 = false →
     BASE_URL (location +:+ "#" +:+ n1 +:+ "/" +:+ n2)
              ("#" +:+ n1 +:+ "/" +:+ n2)
     = location +:+ "#" +:+ n1 +:+ "/../api/" +:+ n1 +:+ "/" +:+ n2).
Proof.
  split.
  - intros d page hash Hp Hh. unfold BASE_URL, BASE_URL_create.
    rewrite strip_page_last by (by rewrite has_slash_app, Hp, Hh).
    by rewrite !append_assoc.
  - intros location n1 n2 Hn. unfold BASE_URL.
    replace (location +:+ "#" +:+ n1 +:+ "/" +:+ n2)
      with ((location +:+ "#" +:+ n1) +:+ "/" +:+ n2)
      by (by rewrite !append_assoc).
    rewrite strip_page_last by done.
    change (substring1 ("#" +:+ n1 +:+ "/" +:+ n2)) with (n1 +:+ "/" +:+ n2).
    by rewrite !append_assoc.
Qed.

Lemma strip_page_keeps_up_to_last_slash_witness :
  strip_page "http://host/show/#name" = "http://host/show/" ∧
  strip_page "name" = "".
Proof.
  destruct strip_page_keeps_up_to_last_slash as (Hlast & Hnone & _). split.
  - apply (Hlast "http://host/show" "#name"). reflexivity.
  - apply Hnone. reflexivity.
Defined.

Lemma BASE_URL_of_page_witness :
  BASE_URL "http://host/show/#name" "#name" = "http://host/show/../api/name" ∧
  BASE_URL "http://host/show/#a/b" "#a/b"
  = "http://host/show/#a/../api/a/b".
Proof.
  destruct BASE_URL_of_page as [Hpage Hslash]. split.
  - destruct (Hpage "http://host/show" "" "#name") as [Hb _];
      [reflexivity..|]. exact Hb.
  - apply (Hslash "http://host/show/" "a" "b"). reflexivity.
Defined.

(** ** The create page *)

Section Create.

Context {service : Type} {api : Registry service}.
Implicit Types p : form service.

(** X15. [create] posts its submission once, with the seed 12345. It sets
    the address of the page, to the show page of the name, exactly for a
    response that is [ok], and then it shows no alert; otherwise the page
    stays where it is. *)
Theorem create_goes_on_when_accepted (name text shape : string) p :
  let sub := Submission name text shape 12345 in
  let p' := (create name text shape p).2 in
  submitted p' = submitted p ++ [sub] ∧
  registry p' = (register sub (registry p)).2 ∧
  (accepted (register sub (registry p)).1 →
   (create name text shape p).1 = Resolved () ∧
   href p' = Some ("../show/#" +:+ name) ∧ shown p' = shown p) ∧
  (¬ accepted (register sub (registry p)).1 → href p' = href p).
Proof.
  intros sub p'. subst p'. unfold create. fold sub.
  destruct (register sub (registry p)).1 as [st body|]; simpl.
  - destruct (ok st) eqn:Hok; simpl.
    + split_and!; [done..|]. by intros [].
    + case_bool_decide; simpl; split_and!; done.
  - split_and!; done.
Qed.

(** X16. What [create] shows when it is turned down: for the status 409
    the alert that the name is taken, for another status that is not [ok]
    the text of the response after "Failed to create message: ", and one
    alert only. When there is no response at all it shows nothing: the
    handler throws a [TypeError] on [r.text()], and the promise is
    rejected. *)
Theorem create_alerts_when_turned_down (name text shape : string) p :
  let sub := Submission name text shape 12345 in
  let p' := (create name text shape p).2 in
  (∀ body, (register sub (registry p)).1 = Answer 409 body →
           shown p' = shown p ++ [name_taken]) ∧
  (∀ status body,
     (register sub (registry p)).1 = Answer status body →
     ok status = false → status ≠ 409 →
     shown p' = shown p ++ ["Failed to create message: " +:+ body]) ∧
  ((register sub (registry p)).1 = NoAnswer →
   shown p' = shown p ∧ (create name text shape p).1 = Rejected TypeError).
Proof.
  intros sub p'. subst p'. unfold create. fold sub. split_and!.
  - by intros body ->.
  - intros status body -> Hok Hne. simpl. rewrite Hok.
    by rewrite bool_decide_eq_false_2.
  - by intros ->.
Qed.

End Create.

(** A first message goes through, a second one of the same name does not. *)
Lemma create_goes_on_when_accepted_witness :
  let p : form (list string) := Form [] None [] [] in
  href (create "hello" "Hello!" "square" p).2 = Some "../show/#hello" ∧
  href (create "hello" "Again" "square" (Form [] None [] ["hello"])).2 = None.
Proof.
  intros p. split_and!.
  - destruct (create_goes_on_when_accepted "hello" "Hello!" "square" p)
      as (_ & _ & Hok & _).
    destruct Hok as (_ & Hh & _); [reflexivity|]. exact Hh.
  - destruct (create_goes_on_when_accepted "hello" "Again" "square"
                (Form [] None [] ["hello"])) as (_ & _ & _ & Hno).
    apply Hno. vm_compute. discriminate.
Defined.

Lemma create_alerts_when_turned_down_witness :
  shown (create "hello" "Again" "square" (Form [] None [] ["hello"])).2
  = [name_taken] ∧
  shown (create "hello" "" "square" (Form [] None [] ([] : list string))).2
  = ["Failed to create message: No text"] ∧
  create "hello" "Hello!" "square" (Form [] None [] ())
  = (Rejected TypeError,
     Form [] None [Submission "hello" "Hello!" "square" 12345] ()).
Proof.
  split_and!.
  - destruct (create_alerts_when_turned_down "hello" "Again" "square"
                (Form [] None [] ["hello"])) as (Htaken & _).
    apply (Htaken "Conflict"). reflexivity.
  - destruct (create_alerts_when_turned_down "hello" "" "square"
                (Form [] None [] ([] : list string))) as (_ & Hfail & _).
    apply (Hfail 400 "No text"); [reflexivity|reflexivity|lia].
  - destruct (create_alerts_when_turned_down "hello" "Hello!" "square"
                (Form [] None [] ())) as (_ & _ & Hnone).
    destruct Hnone as [_ Hrej]; [reflexivity|]. reflexivity.
Defined.

(** The cache of a fresh page is in order, and stays so. *)
Lemma cache_stays_tidy_witness :
  tidy (rooms (main 6 (fresh (Session star None))).2).
Proof.
  destruct (cache_stays_tidy (fresh (Session star None))) as [_ Hmain].
  - intros x r Hx. simpl in Hx. by rewrite lookup_empty in Hx.
  - apply Hmain.
Defined.

(** The first room of the star is stored once: a second [cache] of it, or
    of another record with its identifier, changes nothing. *)
Lemma cache_again_changes_nothing_witness :
  let w : world unit := (cache (Some roomA) (fresh ())).2 in
  cache (Some cell) w = (Resolved (Some cell), w) ∧
  cache (Some roomA) w = (Resolved (Some roomA), w).
Proof.
  intros w. split.
  - destruct (cache_again_changes_nothing roomA cell w) as [Hk _].
    apply Hk. exists roomA. reflexivity.
  - destruct (cache_again_changes_nothing roomA cell (fresh ())) as [_ Ht].
    exact Ht.
Defined.

(** ** Responses with no room *)

Section Silence.

Context {service : Type} {api : Remote service}.
Implicit Types w : world service.

(** X17. An [ok] response whose text is "null", or is not JSON at all,
    ends the session with no alert: [cache] throws a [TypeError] on the
    [null] that it is given, and [JSON.parse] throws a [SyntaxError] on a
    text that is not JSON. [begin], [move] and [main] reject, and nothing
    but the log of requests has changed. *)
Theorem null_or_malformed_response_is_silent w status text :
  ok status = true → text = JsonNull ∨ text = JsonGarbage →
  let oops := match text with JsonNull => TypeError | _ => SyntaxError end in
  (∀ s, serve (init GET None true) (remote w) = (Response status text, s) →
        begin w = (Rejected oops, posted (init GET None true) s w) ∧
        ∀ fuel, main fuel w = (Rejected oops, posted (init GET None true) s w)) ∧
  (∀ x s, serve (init PUT (Some x) false) (remote w)
          = (Response status text, s) →
          move x w = (Rejected oops, posted (init PUT (Some x) false) s w)).
Proof.
  intros Hok Htext oops. split.
  - intros s Hs.
    assert (begin w = (Rejected oops, posted (init GET None true) s w)) as Hb.
    { rewrite begin_run, req_run. cbv zeta. rewrite Hs; simpl. rewrite Hok.
      subst oops. by destruct Htext as [-> | ->]. }
    split; [done|]. intros fuel. unfold main, mbind, M_bind, bind.
    by rewrite Hb.
  - intros x s Hs. rewrite move_run, req_run. cbv zeta. rewrite Hs; simpl.
    rewrite Hok. subst oops. by destruct Htext as [-> | ->].
Qed.

End Silence.

Lemma null_or_malformed_response_is_silent_witness :
  main 3 (fresh ()) = (Rejected TypeError, World ∅ [] [] [] [init GET None true] ()) ∧
  move "B" (fresh ())
  = (Rejected TypeError, World ∅ [] [] [] [init PUT (Some "B") false] ()).
Proof.
  destruct (null_or_malformed_response_is_silent (fresh ()) 200 JsonNull)
    as [Hb Hm]; [reflexivity|by left|]. split.
  - destruct (Hb () eq_refl) as [_ Hmain]. exact (Hmain 3%nat).
  - exact (Hm "B" () eq_refl).
Defined.
